(** * Text normalisation and fuzzy matching: a shallow embedding

    The development follows the Python sources [ulits.py], [logic.py],
    [row_backend.py] and [backend.py].  Python [str] values that have passed
    the normaliser are modelled as lists of 7-bit characters ([pystr]); raw
    text entering [clean_text] is a list of Unicode code points ([ustr]).
    Dictionaries are association lists where the insertion order is
    observable and [gmap]s otherwise, Python sets are [gset]s, and the
    libraries the sources call ([unicodedata], [datetime], [fuzzywuzzy]) are
    interfaces ([Class]es) whose laws are stated where a theorem needs
    them.

    Part I holds the model, Part II the lemmas and the theorems on the
    normaliser, the matchers and the reprocessor, Part III those on the
    further functions of the sources. *)

From Stdlib Require Import ZArith NArith Ascii String List Permutation Lia.
From stdpp Require Import base decidable option list gmap strings pretty sorting.

Local Open Scope Z_scope.

(** * Part I: the model *)

(** ** Python strings *)

Abbreviation pystr := (list ascii).
Abbreviation ustr := (list N).

(** Literal strings of the sources. *)
Definition py (s : string) : pystr := list_ascii_of_string s.

Definition ustr_of (s : pystr) : ustr := N_of_ascii <$> s.

Module Char.

Definition code (c : ascii) : N := N_of_ascii c.

Definition in_range (lo hi : N) (c : ascii) : bool :=
  ((lo <=? code c) && (code c <=? hi))%N.

(** [str.isspace] and the regex class [\s] on the ASCII range: TAB, LF, VT,
    FF, CR, the separators FS, GS, RS, US, and the blank. *)
Definition is_space (c : ascii) : bool :=
  in_range 9 13 c || in_range 28 32 c.

Definition is_upper (c : ascii) : bool := in_range 65 90 c.

(** The regex class [\w] on the ASCII range: letters, digits, underscore. *)
Definition is_word (c : ascii) : bool :=
  in_range 48 57 c || in_range 65 90 c || in_range 97 122 c
  || (code c =? 95)%N.

Definition lower (c : ascii) : ascii :=
  if is_upper c then ascii_of_N (code c + 32) else c.

Definition space : ascii := " "%char.


End Char.

(** ** String primitives of Python used by the sources *)

(** [s.lower()] *)
Definition str_lower (s : pystr) : pystr := Char.lower <$> s.

(** [s.lstrip(chars)], [s.rstrip(chars)] and [s.strip(chars)]; [drop] tells
    which characters go. *)
Fixpoint lstrip_of (drop : ascii → bool) (s : pystr) : pystr :=
  match s with
  | [] => []
  | c :: r => if drop c then lstrip_of drop r else s
  end.

Fixpoint rstrip_of (drop : ascii → bool) (s : pystr) : pystr :=
  match s with
  | [] => []
  | c :: r =>
      match rstrip_of drop r with
      | [] => if drop c then [] else [c]
      | r' => c :: r'
      end
  end.

Definition strip_of (drop : ascii → bool) (s : pystr) : pystr :=
  rstrip_of drop (lstrip_of drop s).

(** [s.strip()] without arguments drops blanks. *)
Definition strip (s : pystr) : pystr := strip_of Char.is_space s.

(** [not s]: the string is empty. *)
Definition is_empty (s : pystr) : bool :=
  match s with [] => true | _ => false end.

(** [s.split()] without arguments: the maximal runs of non-blank
    characters.  [cur] holds the run being read, reversed. *)
Fixpoint split_go (cur : pystr) (s : pystr) : list pystr :=
  match s with
  | [] => match cur with [] => [] | _ => [rev cur] end
  | c :: r =>
      if Char.is_space c
      then match cur with [] => split_go [] r | _ => rev cur :: split_go [] r end
      else split_go (c :: cur) r
  end.

Definition split (s : pystr) : list pystr := split_go [] s.

(** [sep.join(parts)] *)
Fixpoint join (sep : pystr) (parts : list pystr) : pystr :=
  match parts with
  | [] => []
  | [p] => p
  | p :: rest => p ++ sep ++ join sep rest
  end.

(** The text is empty or holds blanks only. *)
Definition is_blank (s : pystr) : bool := forallb Char.is_space s.

(** [sorted(xs, key=...)] is stable; [leb a b] says that [a] may stay in
    front of [b].  An element moves left only past elements that must come
    after it. *)
Fixpoint sorted_insert {A} (leb : A → A → bool) (x : A) (l : list A) : list A :=
  match l with
  | [] => [x]
  | y :: l' => if leb x y then x :: l else y :: sorted_insert leb x l'
  end.

Definition sorted_by {A} (leb : A → A → bool) (l : list A) : list A :=
  foldr (sorted_insert leb) [] l.

(** The order of [str] values: lexicographic on code points. *)
Fixpoint str_leb (a b : pystr) : bool :=
  match a, b with
  | [], _ => true
  | _ :: _, [] => false
  | x :: a', y :: b' =>
      if (Char.code x <? Char.code y)%N then true
      else if (Char.code y <? Char.code x)%N then false
      else str_leb a' b'
  end.

(** ** [ulits.clean_text] *)

(** [re.sub(r"[^\w\s]", " ", text)] *)
Definition sub_non_word (s : pystr) : pystr :=
  (λ c, if Char.is_word c || Char.is_space c then c else Char.space) <$> s.

(** [re.sub(r"\s+", " ", text)]: every maximal run of blanks becomes one
    blank.  [in_run] tells whether the previous character was a blank. *)
Fixpoint collapse_go (in_run : bool) (s : pystr) : pystr :=
  match s with
  | [] => []
  | c :: r =>
      if Char.is_space c
      then if in_run then collapse_go true r else Char.space :: collapse_go true r
      else c :: collapse_go false r
  end.

Definition collapse_ws (s : pystr) : pystr := collapse_go false s.

(** [text.encode("ascii", "ignore").decode("utf-8")]: code points outside
    the ASCII range are dropped, the others are kept as they are. *)
Definition encode_ascii_ignore (u : ustr) : pystr :=
  ascii_of_N <$> filter (λ n, (n < 128)%N) u.

Definition is_ascii_text (u : ustr) : Prop := Forall (λ n, (n < 128)%N) u.

(** [unicodedata.normalize("NFD", text)] comes from the Unicode tables of
    the interpreter. *)
Class Unicodedata := { normalize_NFD : ustr → ustr }.

Definition clean_text `{Unicodedata} (text : ustr) : pystr :=
  let text := normalize_NFD text in
  let text := encode_ascii_ignore text in
  let text := sub_non_word text in
  let text := collapse_ws text in
  str_lower (strip text).

(** A small decomposition table for examples: the Latin-1 letters with an
    acute accent split into the base letter and U+0301; every other code
    point is left alone. *)
Definition nfd_sample_char (n : N) : list N :=
  if (n =? 233)%N then [101; 769]%N       (* e acute *)
  else if (n =? 225)%N then [97; 769]%N   (* a acute *)
  else if (n =? 243)%N then [111; 769]%N  (* o acute *)
  else if (n =? 201)%N then [69; 769]%N   (* E acute *)
  else [n].

Definition nfd_sample (u : ustr) : ustr := u ≫= nfd_sample_char.

Definition sample_unicodedata : Unicodedata := {| normalize_NFD := nfd_sample |}.

(** ** [ulits.apply_synonyms] *)

(** A Python [dict] from strings to strings, as its [items()] in insertion
    order. *)
Abbreviation pydict := (list (pystr * pystr)).





(** ** [ulits.remove_blacklist] *)














(** ** [ulits.extract_words] *)

(** [re.findall(r"\b\w+\b", text)]: the maximal runs of word characters. *)
Fixpoint word_runs_go (cur : pystr) (s : pystr) : list pystr :=
  match s with
  | [] => match cur with [] => [] | _ => [rev cur] end
  | c :: r =>
      if Char.is_word c
      then word_runs_go (c :: cur) r
      else match cur with [] => word_runs_go [] r | _ => rev cur :: word_runs_go [] r end
  end.

Definition findall_words (s : pystr) : list pystr := word_runs_go [] s.

Definition extract_words_step (st : gset pystr * list pystr) (word : pystr)
  : gset pystr * list pystr :=
  let '(seen, unique_words) := st in
  if bool_decide (word ∉ seen) && bool_decide (1 < length word)%nat
  then ({[word]} ∪ seen, unique_words ++ [word])
  else st.

Definition extract_words (text : pystr) : list pystr :=
  let words := findall_words (str_lower text) in
  (foldl extract_words_step (∅, []) words).2.

(** [' '.join(sorted(s))] for a set of strings [s]. *)
Definition join_sorted (s : gset pystr) : pystr :=
  join (py " ") (sorted_by str_leb (elements s)).

(** ** Values, catalog entries and match results *)

(** The values a row dictionary or a result column holds. *)
Inductive pyval :=
| VStr (s : pystr)
| VInt (z : Z)
| VNone
| VDatetime (t : Z).

Global Instance pyval_eq_dec : EqDecision pyval.
Proof. solve_decision. Defined.

(** [datetime] values are counted in microseconds; their rendering by
    [str()] is left to the interpreter. *)
Class Datetime := { datetime_str : Z → pystr }.

Definition str_of `{Datetime} (v : pyval) : pystr :=
  match v with
  | VStr s => s
  | VInt z => py (pretty z)
  | VNone => py "None"
  | VDatetime t => datetime_str t
  end.

(** The dictionary both matchers return.  The batch matcher names the first
    four keys [match], [similarity], [matched] and [missing]. *)
Record MatchResult := {
  best_match : pystr;
  similarity : Z;
  matched_words : pystr;
  missing_words : pystr;
  catalog_id : pystr;
  categoria : pystr;
  variedad : pystr;
  color : pystr;
  grado : pystr
}.

Global Instance MatchResult_eq_dec : EqDecision MatchResult.
Proof. solve_decision. Defined.

(** [_empty_match_result], also the dictionary of the batch matcher's
    [except] branch. *)
Definition empty_match_result : MatchResult :=
  {| best_match := []; similarity := 0; matched_words := []; missing_words := [];
     catalog_id := []; categoria := []; variedad := []; color := []; grado := [] |}.

(** A row of the catalog frame [df2] as [process_files] hands it to the
    matcher: the source columns, then the [search_key] column. *)
Record CatalogRow := {
  attrs : list pystr;
  search_key : pystr
}.

Definition frame_columns (r : CatalogRow) : list pystr := attrs r ++ [search_key r].

(** An item of [catalog_data] in the row processor. *)
Record CatalogEntry := {
  entry_search_key : pystr;
  entry_categoria : pystr;
  entry_variedad : pystr;
  entry_color : pystr;
  entry_grado : pystr;
  entry_catalog_id : pystr
}.

(** A row of the [product_catalog] table; [None] is SQL [NULL]. *)
Record CatalogDbRow := {
  db_categoria : option pystr;
  db_variedad : option pystr;
  db_color : option pystr;
  db_grado : option pystr;
  db_catalog_id : option pystr;
  db_search_key : option pystr
}.

(** The nine result columns [perform_enhanced_matching] fills in lockstep,
    one record per input position. *)
Record MatchColumns := {
  col_best_match : pystr;
  col_similarity : pyval;
  col_matched_words : pystr;
  col_missing_words : pystr;
  col_catalog_id : pystr;
  col_categoria : pystr;
  col_variedad : pystr;
  col_color : pystr;
  col_grado : pystr
}.

(** A row of the frame [process_files] returns. *)
Record EnrichedRow := {
  description : pystr;
  vendor : pystr;
  cleaned_input : pystr;
  applied_synonyms : pystr;
  removed_blacklist_words : pystr;
  enrichment : MatchColumns
}.

(** The rules of one client. *)
Record RuleSet := {
  synonyms : pydict;
  blacklist_input : list pystr
}.

(** ** The environment: rule store, catalog table, clock, processor cache *)

Inductive Scorer := TokenSort | Partial | TokenSet.

Global Instance Scorer_eq_dec : EqDecision Scorer.
Proof. solve_decision. Defined.

(** What an observer of one run sees: a scorer run by [process.extractOne],
    an entry into a matcher, a frame handed to [save_client_processed_data]. *)
Inductive Event :=
| RanScorer (s : Scorer) (query : pystr)
| CalledMatcher (cleaned : pystr)
| Persisted (rows : list EnrichedRow).

Record Env := {
  rule_store : RuleSet;              (* active rows of synonyms_blacklist *)
  rule_store_readable : bool;        (* the SELECTs succeed *)
  rule_store_writable : bool;        (* the DELETE/INSERT transaction commits *)
  catalog_table : option (list CatalogDbRow);  (* None: the query fails *)
  clock : Z;                         (* datetime.now() *)
  catalog_cache : option (list CatalogEntry);  (* self._catalog_cache *)
  cache_timestamp : option Z;        (* self._cache_timestamp *)
  trace : list Event
}.

Definition set_rule_store (rs : RuleSet) (e : Env) : Env :=
  {| rule_store := rs; rule_store_readable := rule_store_readable e;
     rule_store_writable := rule_store_writable e; catalog_table := catalog_table e;
     clock := clock e; catalog_cache := catalog_cache e;
     cache_timestamp := cache_timestamp e; trace := trace e |}.

Definition set_cache (c : option (list CatalogEntry)) (t : option Z) (e : Env) : Env :=
  {| rule_store := rule_store e; rule_store_readable := rule_store_readable e;
     rule_store_writable := rule_store_writable e; catalog_table := catalog_table e;
     clock := clock e; catalog_cache := c; cache_timestamp := t; trace := trace e |}.

Definition add_event (ev : Event) (e : Env) : Env :=
  {| rule_store := rule_store e; rule_store_readable := rule_store_readable e;
     rule_store_writable := rule_store_writable e; catalog_table := catalog_table e;
     clock := clock e; catalog_cache := catalog_cache e;
     cache_timestamp := cache_timestamp e; trace := trace e ++ [ev] |}.

(** ** Python computations: state and exceptions *)

(** A computation runs from an environment to a value or a raised exception
    ([None]), and the environment it leaves. *)
Definition Py (A : Type) : Type := Env → option A * Env.

Global Instance Py_ret : MRet Py := λ A a e, (Some a, e).

Global Instance Py_bind : MBind Py := λ A B f m e,
  match m e with
  | (Some a, e') => f a e'
  | (None, e') => (None, e')
  end.

Definition raise {A} : Py A := λ e, (None, e).

(** [try: body except Exception: handler] *)
Definition try_except {A} (body handler : Py A) : Py A := λ e,
  match body e with
  | (Some a, e') => (Some a, e')
  | (None, e') => handler e'
  end.

Definition get_env : Py Env := λ e, (Some e, e).

Definition modify_env (f : Env → Env) : Py unit := λ e, (Some tt, f e).

Definition observe (ev : Event) : Py unit := modify_env (add_event ev).

(** [for x in xs: st = step(st, x)] *)
Fixpoint for_each {A S} (step : S → A → Py S) (st : S) (xs : list A) : Py S :=
  match xs with
  | [] => mret st
  | x :: xs' => st' ← step st x; for_each step st' xs'
  end.

(** ** fuzzywuzzy *)

(** The three scorers of [fuzzywuzzy.fuzz] the sources pass to
    [process.extractOne], each with the preprocessing [extractOne] wraps
    around it: [token_sort_ratio q c] is the score the library gives choice
    [c] for query [q]. *)
Class Fuzz := {
  token_sort_ratio : pystr → pystr → Z;
  partial_ratio : pystr → pystr → Z;
  token_set_ratio : pystr → pystr → Z
}.

Definition scorer_of `{Fuzz} (s : Scorer) : pystr → pystr → Z :=
  match s with
  | TokenSort => token_sort_ratio
  | Partial => partial_ratio
  | TokenSet => token_set_ratio
  end.

(** The library's scores are percentages. *)
Definition scores_are_percentages (fuzz : Fuzz) : Prop :=
  ∀ s q c, 0 ≤ scorer_of s q c ≤ 100.

(** [max(best_list, key=lambda i: i[1])] over the choices whose score
    reaches [score_cutoff = 0]: the first choice with the highest score. *)
Definition extract_step (scorer : pystr → pystr → Z) (query : pystr)
    (best : option (pystr * Z)) (choice : pystr) : option (pystr * Z) :=
  let score := scorer query choice in
  if 0 <=? score then
    match best with
    | None => Some (choice, score)
    | Some (_, best_score) => if best_score <? score then Some (choice, score) else best
    end
  else best.

Definition extractOne (scorer : pystr → pystr → Z) (query : pystr)
    (choices : list pystr) : option (pystr * Z) :=
  foldl (extract_step scorer query) None choices.

(** [match, score = process.extractOne(query, choices, scorer=...)]: without
    a result the unpacking raises. *)
Definition run_extractOne `{Fuzz} (s : Scorer) (query : pystr) (choices : list pystr)
  : Py (pystr * Z) :=
  observe (RanScorer s query);;
  match extractOne (scorer_of s) query choices with
  | Some r => mret r
  | None => raise
  end.

(** ** [logic.intelligent_fuzzy_match] *)

(** [df2.loc[row_idx, df2.columns[i]]] *)
Definition frame_cell (row : CatalogRow) (i : nat) : Py pystr :=
  match frame_columns row !! i with
  | Some c => mret c
  | None => raise
  end.

(** The block "Find corresponding catalog entry": the first row of [df2]
    whose search key is the match, its sixth column when the frame has more
    than five, and its first four columns. *)
Definition find_catalog_entry (df2 : list CatalogRow) (m : pystr)
  : Py (pystr * pystr * pystr * pystr * pystr) :=
  match List.find (λ r, bool_decide (search_key r = m)) df2 with
  | Some row =>
      cid ← (if bool_decide (5 < length (frame_columns row))%nat
             then frame_cell row 5 else mret []);
      cat ← frame_cell row 0;
      var ← frame_cell row 1;
      col ← frame_cell row 2;
      gra ← frame_cell row 3;
      mret (cid, cat, var, col, gra)
  | None => mret ([], [], [], [], [])
  end.

Definition intelligent_fuzzy_match `{Fuzz} (cleaned_input : pystr)
    (choices : list pystr) (df2 : list CatalogRow) : Py MatchResult :=
  observe (CalledMatcher cleaned_input);;
  try_except
    ('(m, score) ← run_extractOne TokenSort cleaned_input choices;
     '(m, score) ←
        (if score <? 70 then
           '(alt_match, alt_score) ← run_extractOne Partial cleaned_input choices;
           mret (if score <? alt_score then (alt_match, alt_score) else (m, score))
         else mret (m, score));
     '(m, score) ←
        (if score <? 80 then
           '(token_match, token_score) ← run_extractOne TokenSet cleaned_input choices;
           mret (if score <? token_score then (token_match, token_score) else (m, score))
         else mret (m, score));
     let input_words : gset pystr := list_to_set (extract_words cleaned_input) in
     let match_words : gset pystr := list_to_set (extract_words m) in
     let matched := input_words ∩ match_words in
     let missing := input_words ∖ match_words in
     '(cid, cat, var, col, gra) ← find_catalog_entry df2 m;
     mret {| best_match := m; similarity := score;
             matched_words := join_sorted matched;
             missing_words := join_sorted missing;
             catalog_id := cid; categoria := cat; variedad := var;
             color := col; grado := gra |})
    (mret empty_match_result).

(** ** [logic.perform_enhanced_matching] *)

(** The marker of a duplicate row. *)
Definition NN : pystr := py "NN".

Definition duplicate_columns : MatchColumns :=
  {| col_best_match := NN; col_similarity := VStr []; col_matched_words := [];
     col_missing_words := []; col_catalog_id := []; col_categoria := [];
     col_variedad := []; col_color := []; col_grado := [] |}.

Definition columns_of (r : MatchResult) : MatchColumns :=
  {| col_best_match := best_match r; col_similarity := VInt (similarity r);
     col_matched_words := matched_words r; col_missing_words := missing_words r;
     col_catalog_id := catalog_id r; col_categoria := categoria r;
     col_variedad := variedad r; col_color := color r; col_grado := grado r |}.

(** One turn of the matching loop; the state is the result columns so far
    and the [cache] dictionary. *)
Definition matching_step `{Fuzz} (choices : list pystr) (df2 : list CatalogRow)
    (st : list MatchColumns * gmap pystr MatchResult) (cleaned : pystr)
  : Py (list MatchColumns * gmap pystr MatchResult) :=
  let '(out, cache) := st in
  if bool_decide (cleaned = NN) then
    mret (out ++ [duplicate_columns], cache)
  else
    cache ← match cache !! cleaned with
            | None =>
                match_result ← intelligent_fuzzy_match cleaned choices df2;
                mret (<[cleaned := match_result]> cache)
            | Some _ => mret cache
            end;
    match cache !! cleaned with
    | Some result => mret (out ++ [columns_of result], cache)
    | None => raise
    end.

Definition perform_enhanced_matching `{Fuzz} (cleaned_inputs : list pystr)
    (df2 : list CatalogRow) : Py (list MatchColumns) :=
  let choices := search_key <$> df2 in
  st ← for_each (matching_step choices df2) ([], ∅) cleaned_inputs;
  mret st.1.

(** ** [logic.process_files] *)









(** The [search_key] column of the catalog frame: the first four columns
    joined by blanks, trimmed and cleaned. *)
Definition with_search_key `{Unicodedata} (cells : list pystr) : CatalogRow :=
  {| attrs := cells;
     search_key := clean_text (ustr_of (strip (join (py " ") (take 4 cells)))) |}.


(** ** [backend]: the rule store *)

(** [d[k] = v] on a dictionary. *)
Fixpoint dict_set (d : pydict) (k v : pystr) : pydict :=
  match d with
  | [] => [(k, v)]
  | (k', v') :: d' =>
      if bool_decide (k' = k) then (k, v) :: d' else (k', v') :: dict_set d' k v
  end.

(** [{row['original_word']: row['synonym_word'] for row in synonym_rows}] *)
Definition dict_of_rows (rows : list (pystr * pystr)) : pydict :=
  foldl (λ d kv, dict_set d kv.1 kv.2) [] rows.

Definition no_rules : RuleSet := {| synonyms := []; blacklist_input := [] |}.

(** [get_client_synonyms_blacklist]: any failure yields the empty rules. *)
Definition get_client_synonyms_blacklist : Py RuleSet :=
  e ← get_env;
  if rule_store_readable e
  then mret {| synonyms := dict_of_rows (synonyms (rule_store e));
               blacklist_input := blacklist_input (rule_store e) |}
  else mret no_rules.

(** [update_client_synonyms_blacklist]: delete, then insert, in one
    transaction; the flag of the returned pair. *)
Definition update_client_synonyms_blacklist (synonyms_list : list pydict)
    (blacklist_list : list pystr) : Py bool :=
  e ← get_env;
  if rule_store_writable e
  then modify_env (set_rule_store {| synonyms := concat synonyms_list;
                                     blacklist_input := blacklist_list |});;
       mret true
  else mret false.

(** ** [row_backend.EnhancedRowProcessor] *)

(** A row dictionary. *)
Abbreviation pyrow := (gmap string pyval).




(** [[{k: v} for k, v in synonyms.items()]] *)
Definition synonyms_list_of (d : pydict) : list pydict := (λ kv, [kv]) <$> d.


(** [(a - b).seconds] for two [datetime]s [d] microseconds apart: the seconds
    field of the normalised [timedelta], between 0 and 86399. *)
Definition timedelta_seconds (d : Z) : Z := (d / 1000000) mod 86400.

(** [self._cache_ttl] *)
Definition cache_ttl : Z := 300.

(** [x or ''] on a column that may be NULL. *)
Definition or_empty (x : option pystr) : pystr := default [] x.

(** [f"{x}"] on a column that may be NULL. *)
Definition fmt (x : option pystr) : pystr := default (py "None") x.

(** One item of [catalog_data] from a row of the table. *)
Definition catalog_item `{Unicodedata} (row : CatalogDbRow) : CatalogEntry :=
  let search_key :=
    match db_search_key row with
    | Some (c :: k) => c :: k
    | _ =>
        clean_text (ustr_of (strip (fmt (db_categoria row) ++ py " "
          ++ fmt (db_variedad row) ++ py " " ++ fmt (db_color row) ++ py " "
          ++ fmt (db_grado row))))
    end in
  {| entry_search_key := search_key;
     entry_categoria := or_empty (db_categoria row);
     entry_variedad := or_empty (db_variedad row);
     entry_color := or_empty (db_color row);
     entry_grado := or_empty (db_grado row);
     entry_catalog_id := or_empty (db_catalog_id row) |}.

(** The test that lets [_get_catalog_data] answer from the cache. *)
Definition cache_valid (e : Env) (force_refresh : bool) (current_time : Z) : bool :=
  negb force_refresh
  && bool_decide (catalog_cache e ≠ None)
  && match cache_timestamp e with
     | Some stamp => timedelta_seconds (current_time - stamp) <? cache_ttl
     | None => false
     end.

Definition _get_catalog_data `{Unicodedata} (force_refresh : bool)
  : Py (list CatalogEntry) :=
  try_except
    (e ← get_env;
     let current_time := clock e in
     if cache_valid e force_refresh current_time
     then mret (default [] (catalog_cache e))
     else
       match catalog_table e with
       | None => raise
       | Some results =>
           let catalog_data := catalog_item <$> results in
           modify_env (set_cache (Some catalog_data) (Some current_time));;
           mret catalog_data
       end)
    (e ← get_env; mret (default [] (catalog_cache e))).

Definition _perform_fuzzy_matching `{Fuzz} (cleaned_input : pystr)
    (catalog_data : list CatalogEntry) : Py MatchResult :=
  observe (CalledMatcher cleaned_input);;
  try_except
    (if is_empty (strip cleaned_input) || bool_decide (catalog_data = [])
     then mret empty_match_result
     else
       let search_keys :=
         filter (λ k, k ≠ []) (entry_search_key <$> catalog_data) in
       if bool_decide (search_keys = []) then mret empty_match_result
       else
         '(best, similarity) ← run_extractOne TokenSort cleaned_input search_keys;
         '(best, similarity) ←
            (if similarity <? 70 then
               '(alt_match, alt_similarity) ←
                  run_extractOne Partial cleaned_input search_keys;
               mret (if similarity <? alt_similarity
                     then (alt_match, alt_similarity) else (best, similarity))
             else mret (best, similarity));
         '(best, similarity) ←
            (if similarity <? 80 then
               '(token_match, token_similarity) ←
                  run_extractOne TokenSet cleaned_input search_keys;
               mret (if similarity <? token_similarity
                     then (token_match, token_similarity) else (best, similarity))
             else mret (best, similarity));
         match List.find (λ item, bool_decide (entry_search_key item = best))
                         catalog_data with
         | None => mret empty_match_result
         | Some matched_item =>
             let input_words : gset pystr := list_to_set (extract_words cleaned_input) in
             let match_words : gset pystr := list_to_set (extract_words best) in
             mret {| best_match := best; similarity := similarity;
                     matched_words := join_sorted (input_words ∩ match_words);
                     missing_words := join_sorted (input_words ∖ match_words);
                     catalog_id := entry_catalog_id matched_item;
                     categoria := entry_categoria matched_item;
                     variedad := entry_variedad matched_item;
                     color := entry_color matched_item;
                     grado := entry_grado matched_item |}
         end)
    (mret empty_match_result).



(** * Part I, continued: further functions of the sources *)

(** ** More string primitives *)

(** [s.startswith(p)] and [s.endswith(p)] *)
Fixpoint startswith (p s : pystr) : bool :=
  match p, s with
  | [], _ => true
  | _ :: _, [] => false
  | x :: p', c :: s' => Ascii.eqb x c && startswith p' s'
  end.

Definition endswith (p s : pystr) : bool := startswith (rev p) (rev s).

(** [needle in hay] for two strings. *)
Fixpoint contains (needle hay : pystr) : bool :=
  startswith needle hay ||
  match hay with
  | [] => false
  | _ :: rest => contains needle rest
  end.

(** [s.replace(old, new)]: the occurrences of [old] met by one scan from the
    left are replaced; [skip] counts the characters of the current
    occurrence still to pass.  The sources only replace literals that are
    not empty. *)
Fixpoint replace_go (skip : nat) (old new s : pystr) : pystr :=
  match s with
  | [] => []
  | c :: r =>
      match skip with
      | S k => replace_go k old new r
      | O =>
          if startswith old s
          then new ++ replace_go (length old - 1) old new r
          else c :: replace_go 0 old new r
      end
  end.

Definition str_replace (old new s : pystr) : pystr := replace_go 0 old new s.

(** ** [ulits.classify_missing_words] *)

(** The classification dictionary, as its [items()]; a value that is not a
    list is [None]. *)
Abbreviation classification := (list (pystr * option (list pystr))).



(** ** [ulits.validate_text_input] and [ulits.create_search_key] *)

Definition validate_text_input `{Datetime} (text : pyval) : pystr :=
  match text with
  | VNone => []
  | VInt z => str_of (VInt z)
  | VStr s => strip s
  | VDatetime t => strip (str_of (VDatetime t))
  end.

Definition create_search_key `{Unicodedata} `{Datetime}
    (categoria variedad color grado : pyval) : pystr :=
  let components := validate_text_input <$> [categoria; variedad; color; grado] in
  let valid_components := filter (λ comp, comp ≠ []) components in
  let combined_text := join (py " ") valid_components in
  clean_text (ustr_of combined_text).

(** ** [ulits.truncate_text] *)

(** A slice bound [k] of Python on a sequence of length [len]: a negative
    bound counts from the end, and every bound is clipped to the sequence. *)
Definition slice_bound (len : nat) (k : Z) : nat :=
  if k <? 0 then Z.to_nat (Z.max 0 (Z.of_nat len + k))
  else Z.to_nat (Z.min k (Z.of_nat len)).

(** [s[:k]] *)
Definition slice_to {A} (s : list A) (k : Z) : list A :=
  take (slice_bound (length s) k) s.

(** [s.rfind(c, 0, stop)] for a character [c]: the greatest index below the
    bound that holds [c], or -1. *)
Definition rfind (c : N) (s : ustr) (stop : Z) : Z :=
  (foldl (λ st x, (st.1 + 1, if (x =? c)%N then st.1 else st.2))
         (0, -1) (slice_to s stop)).2.

(** The one comparison of an [int] with a [float] product in the sources,
    [space_index > max_length * 0.7], as the interpreter computes it. *)
Class FloatArith := { exceeds_seven_tenths : Z → Z → bool }.

Definition truncate_text `{FloatArith} (text : ustr) (max_length : Z)
    (ellipsis : ustr) : ustr :=
  if Z.of_nat (length text) <=? max_length then text
  else
    let truncate_point := max_length - Z.of_nat (length ellipsis) in
    let space_index := rfind 32 text truncate_point in
    if exceeds_seven_tenths space_index max_length
    then slice_to text space_index ++ ellipsis
    else slice_to text truncate_point ++ ellipsis.

(** ** [ulits.batch_process_list] *)

(** [range(0, stop, step)] for a positive step; at most [stop] values. *)
Fixpoint range_from (fuel : nat) (i stop step : nat) : list nat :=
  match fuel with
  | O => []
  | S fuel' =>
      if (i <? stop)%nat then i :: range_from fuel' (i + step) stop step else []
  end.

Definition py_range (stop step : nat) : list nat := range_from stop 0 stop step.

Definition batch_process_list {A} (items : list A) (batch_size : Z) : list (list A) :=
  if batch_size <=? 0 then
    match items with [] => [] | _ => [items] end
  else
    let size := Z.to_nat batch_size in
    foldl (λ batches i,
             let batch := take size (drop i items) in
             match batch with [] => batches | _ => batches ++ [batch] end)
          [] (py_range (length items) size).

(** ** [ulits.merge_dictionaries] *)

(** A value of a dictionary to merge: a list, or anything else. *)
Inductive dictval :=
| DList (items : list pyval)
| DOther (v : pyval).

Global Instance dictval_eq_dec : EqDecision dictval.
Proof. solve_decision. Defined.

(** A [dict] with string keys, as its [items()] in insertion order. *)
Abbreviation anydict := (list (pystr * dictval)).

(** [d.get(k)] and [d[k] = v] on a dictionary with values of any type. *)
Fixpoint dict_get {V} (d : list (pystr * V)) (k : pystr) : option V :=
  match d with
  | [] => None
  | (k', v) :: d' => if bool_decide (k' = k) then Some v else dict_get d' k
  end.

Fixpoint dict_put {V} (d : list (pystr * V)) (k : pystr) (v : V) : list (pystr * V) :=
  match d with
  | [] => [(k, v)]
  | (k', v') :: d' =>
      if bool_decide (k' = k) then (k, v) :: d' else (k', v') :: dict_put d' k v
  end.

(** One turn of the inner loop. *)
Definition merge_item (conflict_strategy : pystr) (merged : anydict)
    (kv : pystr * dictval) : anydict :=
  let '(key, value) := kv in
  match dict_get merged key with
  | None => dict_put merged key value
  | Some current =>
      if bool_decide (conflict_strategy = py "last_wins") then
        dict_put merged key value
      else if bool_decide (conflict_strategy = py "first_wins") then merged
      else if bool_decide (conflict_strategy = py "combine_lists") then
        match current, value with
        | DList a, DList b => dict_put merged key (DList (a ++ b))
        | _, _ => dict_put merged key value
        end
      else merged
  end.

(** The arguments [*dicts]; one that is not a [dict] is [None]. *)
Definition merge_dictionaries (dicts : list (option anydict))
    (conflict_strategy : pystr) : anydict :=
  foldl (λ merged dictionary,
           match dictionary with
           | None => merged
           | Some d => foldl (merge_item conflict_strategy) merged d
           end) [] dicts.

(** ** [backend.EnhancedMultiClientDatabase.get_client_database_name] *)

(** [None] is the [ValueError] for an unknown database type. *)
Definition get_client_database_name (client_id db_type : pystr) : option pystr :=
  if bool_decide (db_type = py "main") then
    Some (py "mapping_validation_" ++ client_id)
  else if bool_decide (db_type = py "staging") then
    Some (py "vendor_staging_area_" ++ client_id)
  else if bool_decide (db_type = py "catalog") then
    Some (py "product_catalog_" ++ client_id)
  else if bool_decide (db_type = py "synonyms") then
    Some (py "synonyms_blacklist_" ++ client_id)
  else None.

(** ** [backend.get_available_clients] *)

(** A row of [SHOW DATABASES] as the cursor hands it over: a dictionary, a
    tuple, or a single value. *)
Inductive ListingRow :=
| DictRow (items : list (pystr * pystr))
| TupleRow (cells : list pystr)
| ScalarRow (text : pystr).

(** The name read from a row: the outer [None] is an exception (the index
    into an empty tuple), the inner one the value [None]. *)
Definition listed_db_name (db_row : ListingRow) : option (option pystr) :=
  match db_row with
  | DictRow items =>
      let db_name :=
        snd <$> List.find (λ kv : pystr * pystr,
                             contains (py "database") (str_lower kv.1)
                             || contains (py "db") (str_lower kv.1)) items in
      match db_name, items with
      | Some (c :: name), _ => Some (Some (c :: name))
      | _, kv :: _ => Some (Some kv.2)
      | _, [] => Some db_name
      end
  | TupleRow cells =>
      match cells with
      | c :: _ => Some (Some c)
      | [] => None
      end
  | ScalarRow text => Some (Some text)
  end.

(** [for x in xs: st = step(st, x)] where a step may raise. *)
Fixpoint for_each_opt {A S} (step : S → A → option S) (st : S) (xs : list A)
  : option S :=
  match xs with
  | [] => Some st
  | x :: xs' => st' ← step st x; for_each_opt step st' xs'
  end.

(** One turn of the loop over the rows. *)
Definition available_step (clients : list pystr) (db_row : ListingRow)
  : option (list pystr) :=
  db_name ← listed_db_name db_row;
  match db_name with
  | Some (c :: name) =>
      let db_name := c :: name in
      if startswith (py "mapping_validation_") db_name
         && negb (endswith (py "_system") db_name)
      then
        let client_id := str_replace (py "mapping_validation_") [] db_name in
        if bool_decide (client_id ∉ clients)
        then Some (clients ++ [client_id])
        else Some clients
      else Some clients
  | _ => Some clients
  end.

(** [databases] is what [fetchall] returned, or [None] when the connection
    or the statement failed. *)
Definition get_available_clients (databases : option (list ListingRow))
  : list pystr :=
  match databases ≫= for_each_opt available_step [] with
  | Some clients => sorted_by str_leb clients
  | None => []
  end.

(** ** [logic.process_files]: the rules in force *)

(** [list(set(xs))]: the order in which a set hands out its elements is the
    interpreter's. *)
Class SetOrder := { list_of_set : list pystr → list pystr }.

(** [{**a, **b}] *)
Definition dict_union (a b : pydict) : pydict :=
  foldl (λ d kv, dict_set d kv.1 kv.2) a b.

(** The block that resolves [merged_synonyms] and [merged_blacklist]:
    [dictionary] holds the rules handed to [process_files], [client] tells
    whether a [client_id] was given. *)
Definition merged_rules `{SetOrder} (dictionary : RuleSet) (client : bool)
  : Py RuleSet :=
  if client then
    try_except
      (client_rules ← get_client_synonyms_blacklist;
       mret {| synonyms := dict_union (synonyms client_rules) (synonyms dictionary);
               blacklist_input :=
                 list_of_set (blacklist_input client_rules
                              ++ blacklist_input dictionary) |})
      (mret dictionary)
  else mret dictionary.

(** ** [row_backend]: the other methods of the processor *)

Definition set_catalog_table (t : option (list CatalogDbRow)) (e : Env) : Env :=
  {| rule_store := rule_store e; rule_store_readable := rule_store_readable e;
     rule_store_writable := rule_store_writable e; catalog_table := t;
     clock := clock e; catalog_cache := catalog_cache e;
     cache_timestamp := cache_timestamp e; trace := trace e |}.

(** [clear_cache] *)
Definition clear_cache : Py unit := modify_env (set_cache None None).

(** The catalog database as [save_as_staging_product] meets it, on a
    connection of its own: [insert_row row table] is [None] when connecting
    or the [INSERT] raises, and otherwise what later [SELECT]s find in
    [product_catalog] once the connection is closed, [table] being what
    they found before. *)
Class CatalogDb := {
  insert_row : CatalogDbRow → option (list CatalogDbRow)
               → option (option (list CatalogDbRow))
}.

(** The row that [save_as_staging_product] inserts. *)
Definition staging_row `{Unicodedata} (categoria variedad color grado : pystr)
  : CatalogDbRow :=
  let search_key :=
    clean_text (ustr_of (categoria ++ py " " ++ variedad ++ py " "
                         ++ color ++ py " " ++ grado)) in
  {| db_categoria := Some categoria; db_variedad := Some variedad;
     db_color := Some color; db_grado := Some grado;
     db_catalog_id := Some (py "111111"); db_search_key := Some search_key |}.

(** [save_as_staging_product]: the flag of the returned pair. *)
Definition save_as_staging_product `{Unicodedata} `{CatalogDb}
    (categoria variedad color grado : pystr) : Py bool :=
  try_except
    (e ← get_env;
     match insert_row (staging_row categoria variedad color grado)
                      (catalog_table e) with
     | None => raise
     | Some table =>
         modify_env (set_catalog_table table);;
         modify_env (λ e, set_cache None (cache_timestamp e) e);;
         mret true
     end)
    (mret false).






(** * Part I, continued: notions used in the statements *)

(** ** Text *)

(** The text does not begin with a character that [strip] drops. *)
Definition starts_kept (drop : ascii → bool) (s : pystr) : Prop :=
  match s with [] => True | c :: _ => drop c = false end.

(** Blanks that stand alone: every blank is the character [" "] and no two
    are neighbours; [prev_blank] tells whether a blank precedes the text. *)
Fixpoint spaced (prev_blank : bool) (s : pystr) : bool :=
  match s with
  | [] => true
  | c :: r =>
      if Char.is_space c
      then Ascii.eqb c Char.space && negb prev_blank && spaced true r
      else spaced false r
  end.

(** What survives the substitution, the collapse and the trimming: word
    characters and the blank character. *)
Definition plain (c : ascii) : Prop := Char.is_word c = true ∨ c = Char.space.

(** A token of [split]: not empty, without blanks. *)
Definition is_token (w : pystr) : Prop :=
  w ≠ [] ∧ Forall (λ c, Char.is_space c = false) w.

(** The law of NFD the normaliser relies on: text in the ASCII range has no
    decomposition. *)
Definition NFD_fixes_ascii (U : Unicodedata) : Prop :=
  ∀ u, is_ascii_text u → normalize_NFD u = u.

(** The middle of the pipeline: the text between the encoding and the
    lowering. *)
Definition trimmed `{Unicodedata} (text : ustr) : pystr :=
  strip (collapse_ws (sub_non_word (encode_ascii_ignore (normalize_NFD text)))).

(** ** Synonyms and blacklist *)









(** ** Traces *)

(** The environment after the events [evs] were observed. *)
Definition add_events (evs : list Event) (e : Env) : Env := foldl (flip add_event) e evs.

(** [Logs m v evs]: whatever the environment, [m] ends with [v] and appends
    the events [evs] to the trace, touching nothing else. *)
Definition Logs {A} (m : Py A) (v : option A) (evs : list Event) : Prop :=
  ∀ e, m e = (v, add_events evs e).

(** [Logging P m]: [m] only logs, and only events that satisfy [P]. *)
Definition Logging (P : Event → Prop) {A} (m : Py A) : Prop :=
  ∃ v evs, Logs m v evs ∧ Forall P evs.

(** The event is a scorer run. *)
Definition is_scorer_run (ev : Event) : Prop :=
  match ev with RanScorer _ _ => True | _ => False end.

(** The events of the matching engine: everything but a save. *)
Definition is_engine_event (ev : Event) : Prop :=
  match ev with Persisted _ => False | _ => True end.

(** The arguments of the matcher calls in a trace. *)
Definition matcher_calls (t : list Event) : list pystr :=
  omap (λ ev, match ev with CalledMatcher c => Some c | _ => None end) t.

(** The events of a matcher run that ran the scorers [ran] on [text]. *)
Definition matcher_events (text : pystr) (ran : list Scorer) : list Event :=
  CalledMatcher text :: ((λ s, RanScorer s text) <$> ran).

(** The environment every run can be compared with: a working store without
    rules, an empty catalog table, no cache, an empty trace. *)
Definition env0 : Env :=
  {| rule_store := no_rules; rule_store_readable := true; rule_store_writable := true;
     catalog_table := Some []; clock := 0; catalog_cache := None;
     cache_timestamp := None; trace := [] |}.

(** ** Matching *)

(** The value of the batch matcher for a text, whatever the environment. *)
Definition match_of `{Fuzz} (c : pystr) (df2 : list CatalogRow) : MatchResult :=
  default empty_match_result
    (intelligent_fuzzy_match c (search_key <$> df2) df2 env0).1.

(** The candidate replaces the current pick only with a strictly greater
    score. *)
Definition adopt (current candidate : pystr * Z) : pystr * Z :=
  if current.2 <? candidate.2 then candidate else current.

(** The cascade of the specification, told of a run: [ran] lists the scorers
    run, in order, and [result] carries the final pick.  Scorer A always
    runs; B runs exactly when the pick of A scores below 70; C runs exactly
    when the running pick scores below 80; each is adopted only when
    strictly better. *)
Definition follows_cascade `{Fuzz} (text : pystr) (keys : list pystr)
    (ran : list Scorer) (result : MatchResult) : Prop :=
  ∃ a r1 r2,
    extractOne token_sort_ratio text keys = Some a
    ∧ (if a.2 <? 70
       then ∃ b, extractOne partial_ratio text keys = Some b ∧ r1 = adopt a b
       else r1 = a)
    ∧ (if r1.2 <? 80
       then ∃ c, extractOne token_set_ratio text keys = Some c ∧ r2 = adopt r1 c
       else r2 = r1)
    ∧ ran = [TokenSort] ++ (if a.2 <? 70 then [Partial] else [])
                        ++ (if r1.2 <? 80 then [TokenSet] else [])
    ∧ (80 ≤ a.2 → ran = [TokenSort] ∧ r2 = a)
    ∧ (best_match result, similarity result) = r2
    ∧ r2.1 ∈ keys.

(** The search keys the row matcher scores against. *)
Definition row_search_keys (catalog_data : list CatalogEntry) : list pystr :=
  filter (λ k, k ≠ []) (entry_search_key <$> catalog_data).

(** The naive matcher of the specification: every row is scored on its own,
    without a cache. *)
Definition naive_step `{Fuzz} (choices : list pystr) (df2 : list CatalogRow)
    (out : list MatchColumns) (cleaned : pystr) : Py (list MatchColumns) :=
  if bool_decide (cleaned = NN) then mret (out ++ [duplicate_columns])
  else
    result ← intelligent_fuzzy_match cleaned choices df2;
    mret (out ++ [columns_of result]).

Definition naive_matching `{Fuzz} (cleaned_inputs : list pystr)
    (df2 : list CatalogRow) : Py (list MatchColumns) :=
  for_each (naive_step (search_key <$> df2) df2) [] cleaned_inputs.

(** The result columns of one cleaned input. *)
Definition columns_for `{Fuzz} (df2 : list CatalogRow) (cleaned : pystr) : MatchColumns :=
  if bool_decide (cleaned = NN) then duplicate_columns
  else columns_of (match_of cleaned df2).

(** The inputs that reach the matcher when the strings in [seen] are cached
    already: the first occurrence of every other string but the marker. *)
Fixpoint fresh_calls (seen : gset pystr) (inputs : list pystr) : list pystr :=
  match inputs with
  | [] => []
  | c :: rest =>
      if bool_decide (c = NN) then fresh_calls seen rest
      else if bool_decide (c ∈ seen) then fresh_calls seen rest
      else c :: fresh_calls ({[c]} ∪ seen) rest
  end.

(** Every entry of the cache is the value of the matcher for its key. *)
Definition cache_sound `{Fuzz} (df2 : list CatalogRow)
    (cache : gmap pystr MatchResult) : Prop :=
  ∀ c r, cache !! c = Some r → r = match_of c df2.

(** ** Batches and rows *)






(** What a read of the rule store yields. *)
Definition rules_read (e : Env) : RuleSet :=
  if rule_store_readable e
  then {| synonyms := dict_of_rows (synonyms (rule_store e));
          blacklist_input := blacklist_input (rule_store e) |}
  else no_rules.

(** ** Notions for the further functions *)

(** The alphabet of a cleaned text: small letters, digits, the underscore
    and the blank. *)
Definition clean_char (c : ascii) : bool :=
  Char.in_range 97 122 c || Char.in_range 48 57 c || (Char.code c =? 95)%N
  || Ascii.eqb c Char.space.

(** Text in the 7-bit range. *)
Definition seven_bit (s : pystr) : Prop := Forall (λ c, (N_of_ascii c < 128)%N) s.

(** The words a text leaves to the normaliser: the runs between blanks once
    every other character has become a blank. *)
Definition words_of (s : pystr) : list pystr := split (sub_non_word s).



(** A list of strings in ascending order without repetition, as
    [sorted(set(...))] leaves it. *)
Definition ascending (l : list pystr) : Prop :=
  StronglySorted (λ a b, str_leb a b = true ∧ a ≠ b) l.

(** The pick of the cascade as a value: scorer A, then B below 70, then C
    below 80, each adopted when strictly better. *)
Definition cascade_pick `{Fuzz} (text : pystr) (keys : list pystr)
  : option (pystr * Z) :=
  a ← extractOne token_sort_ratio text keys;
  r1 ← (if a.2 <? 70
        then b ← extractOne partial_ratio text keys; Some (adopt a b)
        else Some a);
  if r1.2 <? 80
  then c ← extractOne token_set_ratio text keys; Some (adopt r1 c)
  else Some r1.



(** The items of all the dictionaries among the arguments, in order. *)
Definition items_of (dicts : list (option anydict)) : anydict :=
  dicts ≫= default [].

(** The values the items hold for a key, in order. *)
Definition values_for (key : pystr) (items : anydict) : list dictval :=
  snd <$> filter (λ kv, kv.1 = key) items.

(** What a conflict makes of the value held and the value met. *)
Definition merge_value (conflict_strategy : pystr) (current value : dictval)
  : dictval :=
  if bool_decide (conflict_strategy = py "last_wins") then value
  else if bool_decide (conflict_strategy = py "first_wins") then current
  else if bool_decide (conflict_strategy = py "combine_lists") then
    match current, value with
    | DList a, DList b => DList (a ++ b)
    | _, _ => value
    end
  else current.

(** What the comparison of [truncate_text] owes to the sign of its
    operands: a product with a length that is not negative is not
    negative, so an index above it is not negative either. *)
Definition float_sign_law (F : FloatArith) : Prop :=
  ∀ space_index max_length,
    0 ≤ max_length → exceeds_seven_tenths space_index max_length = true →
    0 ≤ space_index.

(** The name of the main database of a client, as the module functions of
    [backend] spell it. *)
Definition main_database (client_id : pystr) : pystr :=
  py "mapping_validation_" ++ client_id.

(** A client identifier that the listing can give back: the prefix of the
    database names does not occur in it, and its database is not taken for
    the system database. *)
Definition listable (client_id : pystr) : Prop :=
  contains (py "mapping_validation_") client_id = false
  ∧ endswith (py "_system") (main_database client_id) = false.

(** The law of [list(set(xs))]: every element of [xs], once. *)
Definition set_order_law (S : SetOrder) : Prop :=
  ∀ xs, NoDup (list_of_set xs) ∧ ∀ x, x ∈ list_of_set xs ↔ x ∈ xs.

(** The value the rows hold last for a key. *)
Definition last_value {V} (rows : list (pystr * V)) (k : pystr) : option V :=
  snd <$> last (filter (λ kv, kv.1 = k) rows).



(** * Sample data for the examples *)

(** A scorer given by a table of (query, choice, score); pairs that are not
    listed score 0 and, as in the library, so does every choice against an
    empty or blank query. *)
Definition table_scorer (table : list (pystr * pystr * Z)) (query choice : pystr) : Z :=
  if is_empty (strip query) then 0
  else default 0 (snd <$> List.find (λ e, bool_decide (e.1 = (query, choice))) table).

Definition sample_fuzz (a b c : list (pystr * pystr * Z)) : Fuzz :=
  {| token_sort_ratio := table_scorer a;
     partial_ratio := table_scorer b;
     token_set_ratio := table_scorer c |}.

Definition sample_datetime : Datetime :=
  {| datetime_str := λ t, py "datetime " ++ py (pretty t) |}.

(** An environment with a working store, no catalog cache, an empty trace. *)
Definition sample_env (rules : RuleSet) (table : list CatalogDbRow) (now : Z) : Env :=
  {| rule_store := rules; rule_store_readable := true; rule_store_writable := true;
     catalog_table := Some table; clock := now; catalog_cache := None;
     cache_timestamp := None; trace := [] |}.

Definition roses_key : pystr := py "roses freedom red 40cm".

Definition tulip_key : pystr := py "tulip dutch white 30cm".

(** Two catalog rows with six source columns; the sixth is the catalog
    identifier. *)
Definition roses_row : CatalogRow :=
  {| attrs := [py "Roses"; py "Freedom"; py "Red"; py "40cm"; py "stem"; py "C1"];
     search_key := py "roses freedom red 40cm" |}.

Definition tulip_row : CatalogRow :=
  {| attrs := [py "Tulip"; py "Dutch"; py "White"; py "30cm"; py "stem"; py "C2"];
     search_key := py "tulip dutch white 30cm" |}.

Definition sample_frame : list CatalogRow := [roses_row; tulip_row].

Definition roses_entry : CatalogEntry :=
  {| entry_search_key := py "roses freedom red 40cm"; entry_categoria := py "Roses";
     entry_variedad := py "Freedom"; entry_color := py "Red";
     entry_grado := py "40cm"; entry_catalog_id := py "C1" |}.

Definition tulip_entry : CatalogEntry :=
  {| entry_search_key := py "tulip dutch white 30cm"; entry_categoria := py "Tulip";
     entry_variedad := py "Dutch"; entry_color := py "White";
     entry_grado := py "30cm"; entry_catalog_id := py "C2" |}.

Definition sample_catalog : list CatalogEntry := [roses_entry; tulip_entry].

(** Scores for the queries of the examples.  For "frdm rozes red" token-sort
    prefers the tulip with 65, partial gives the roses 66, token-set gives
    the roses 90. *)
Definition noisy_fuzz : Fuzz :=
  sample_fuzz
    [ (py "frdm rozes red", roses_key, 60); (py "frdm rozes red", tulip_key, 65);
      (py "roses red", roses_key, 72); (py "roses red", tulip_key, 21);
      (py "tulip", roses_key, 18); (py "tulip", tulip_key, 40);
      (py "rosas red premium", roses_key, 82); (py "rosas red premium", tulip_key, 20) ]
    [ (py "frdm rozes red", roses_key, 66); (py "frdm rozes red", tulip_key, 20);
      (py "tulip", roses_key, 30); (py "tulip", tulip_key, 100) ]
    [ (py "frdm rozes red", roses_key, 90); (py "frdm rozes red", tulip_key, 10);
      (py "roses red", roses_key, 100); (py "roses red", tulip_key, 21) ].

Definition roses_result (score : Z) (matched missing : string) : MatchResult :=
  {| best_match := py "roses freedom red 40cm"; similarity := score;
     matched_words := py matched; missing_words := py missing;
     catalog_id := py "C1"; categoria := py "Roses"; variedad := py "Freedom";
     color := py "Red"; grado := py "40cm" |}.

(** A catalog cached at time 0 and asked for one day and ten seconds later,
    while the table holds a new entry. *)
Definition old_entry : CatalogEntry :=
  {| entry_search_key := py "roses red"; entry_categoria := py "Roses";
     entry_variedad := []; entry_color := py "Red"; entry_grado := [];
     entry_catalog_id := py "C1" |}.

Definition new_db_row : CatalogDbRow :=
  {| db_categoria := Some (py "Tulip"); db_variedad := None;
     db_color := Some (py "White"); db_grado := None;
     db_catalog_id := Some (py "111111"); db_search_key := Some (py "tulip white") |}.

Definition day_old_env : Env :=
  set_cache (Some [old_entry]) (Some 0)
    (sample_env no_rules [new_db_row] (86400000000 + 10000000)).




Definition stored_rules : RuleSet :=
  {| synonyms := [(py "rosas", py "roses")]; blacklist_input := [py "stem"] |}.

(** A rule store that can neither be read nor written. *)
Definition store_down_env : Env :=
  {| rule_store := stored_rules; rule_store_readable := false;
     rule_store_writable := false; catalog_table := Some [new_db_row];
     clock := 1000000; catalog_cache := Some [roses_entry; tulip_entry];
     cache_timestamp := Some 0; trace := [] |}.

Definition store_up_env : Env :=
  {| rule_store := stored_rules; rule_store_readable := true;
     rule_store_writable := true; catalog_table := Some [new_db_row];
     clock := 1000000; catalog_cache := Some [roses_entry; tulip_entry];
     cache_timestamp := Some 0; trace := [] |}.


(** The comparison on exact fractions, for the examples. *)
Definition sample_float_arith : FloatArith :=
  {| exceeds_seven_tenths := λ space_index max_length,
       7 * max_length <? 10 * space_index |}.


(** A catalog database whose [INSERT]s are seen by later [SELECT]s, and
    one that loses them; both fail when the table cannot be read. *)
Definition committing_db : CatalogDb :=
  {| insert_row := λ row table, (λ rows, Some (rows ++ [row])) <$> table |}.

Definition forgetting_db : CatalogDb :=
  {| insert_row := λ row table, (λ rows, Some rows) <$> table |}.

(** An order for the examples: the last occurrences, in the order of the
    list. *)
Definition sample_set_order : SetOrder := {| list_of_set := remove_dups |}.

(** * Part II: lemmas and theorems *)

(** ** Characters *)

Ltac by_char_cases c := destruct c as [[] [] [] [] [] [] [] []]; vm_compute; try done.

Lemma is_space_lower c : Char.is_space (Char.lower c) = Char.is_space c.
Proof. by_char_cases c. Qed.

Lemma is_word_lower c : Char.is_word (Char.lower c) = Char.is_word c.
Proof. by_char_cases c. Qed.

Lemma lower_lower c : Char.lower (Char.lower c) = Char.lower c.
Proof. by_char_cases c. Qed.

Lemma word_not_space c : Char.is_word c = true → Char.is_space c = false.
Proof. by_char_cases c. Qed.

Lemma word_is_ascii c : Char.is_word c = true → (N_of_ascii c < 128)%N.
Proof. by_char_cases c. Qed.

(** ** Stripping *)

Section Strip.
Variable drop : ascii → bool.

Lemma lstrip_of_starts_kept s : starts_kept drop (lstrip_of drop s).
Proof. induction s as [|c r IH]; simpl; [done|]. destruct (drop c) eqn:E; done. Qed.

Lemma lstrip_of_id s : starts_kept drop s → lstrip_of drop s = s.
Proof. destruct s as [|c r]; simpl; [done|]. by intros ->. Qed.

Lemma rstrip_of_starts_kept s : starts_kept drop s → starts_kept drop (rstrip_of drop s).
Proof.
  destruct s as [|c r]; simpl; [done|]. intros Hc.
  destruct (rstrip_of drop r); simpl; [by rewrite Hc|done].
Qed.

Lemma rstrip_of_idemp s : rstrip_of drop (rstrip_of drop s) = rstrip_of drop s.
Proof.
  induction s as [|c r IH]; simpl; [done|].
  destruct (rstrip_of drop r) as [|c' r'] eqn:E.
  - destruct (drop c) eqn:Hc; simpl; [done|]. by rewrite Hc.
  - change (rstrip_of drop (c :: c' :: r')) with
      (match rstrip_of drop (c' :: r') with
       | [] => if drop c then [] else [c] | x => c :: x end).
    by rewrite IH.
Qed.

Lemma strip_of_idemp s : strip_of drop (strip_of drop s) = strip_of drop s.
Proof.
  unfold strip_of.
  rewrite (lstrip_of_id (rstrip_of drop _)).
  - apply rstrip_of_idemp.
  - apply rstrip_of_starts_kept, lstrip_of_starts_kept.
Qed.

Lemma lstrip_of_Forall (P : ascii → Prop) s : Forall P s → Forall P (lstrip_of drop s).
Proof.
  induction 1 as [|c r Hc Hr IH]; simpl; [done|].
  destruct (drop c); [done|by constructor].
Qed.

Lemma rstrip_of_Forall (P : ascii → Prop) s : Forall P s → Forall P (rstrip_of drop s).
Proof.
  induction 1 as [|c r Hc Hr IH]; simpl; [done|].
  destruct (rstrip_of drop r); [destruct (drop c); by repeat constructor|by constructor].
Qed.

Lemma strip_of_Forall (P : ascii → Prop) s : Forall P s → Forall P (strip_of drop s).
Proof. intros. by apply rstrip_of_Forall, lstrip_of_Forall. Qed.

Lemma lstrip_of_fmap (f : ascii → ascii) s :
  (∀ c, drop (f c) = drop c) →
  lstrip_of drop (f <$> s) = f <$> lstrip_of drop s.
Proof.
  intros Hf. induction s as [|c r IH]; csimpl; [done|].
  rewrite Hf. by destruct (drop c).
Qed.

Lemma rstrip_of_fmap (f : ascii → ascii) s :
  (∀ c, drop (f c) = drop c) →
  rstrip_of drop (f <$> s) = f <$> rstrip_of drop s.
Proof.
  intros Hf. induction s as [|c r IH]; csimpl; [done|].
  rewrite IH, Hf. destruct (rstrip_of drop r); csimpl; [by destruct (drop c)|done].
Qed.

Lemma strip_of_fmap (f : ascii → ascii) s :
  (∀ c, drop (f c) = drop c) →
  strip_of drop (f <$> s) = f <$> strip_of drop s.
Proof. intros Hf. unfold strip_of. by rewrite lstrip_of_fmap, rstrip_of_fmap. Qed.

Lemma lstrip_of_all s : forallb drop s = true → lstrip_of drop s = [].
Proof.
  induction s as [|c r IH]; simpl; [done|].
  intros [-> ?]%andb_prop. auto.
Qed.

Lemma lstrip_of_nil_inv s : lstrip_of drop s = [] → forallb drop s = true.
Proof.
  induction s as [|c r IH]; simpl; [done|].
  destruct (drop c); [auto|done].
Qed.

Lemma rstrip_of_nil_inv s : rstrip_of drop s = [] → forallb drop s = true.
Proof.
  induction s as [|c r IH]; simpl; [done|].
  destruct (rstrip_of drop r); [|done].
  destruct (drop c); [auto|done].
Qed.

End Strip.

Lemma strip_idemp s : strip (strip s) = strip s.
Proof. apply strip_of_idemp. Qed.

(** [not s.strip()] holds exactly for the empty and the blank strings. *)
Lemma strip_empty_blank s : is_empty (strip s) = is_blank s.
Proof.
  unfold strip, strip_of, is_blank.
  destruct (forallb Char.is_space s) eqn:E.
  - by rewrite lstrip_of_all.
  - destruct (rstrip_of _ _) eqn:R; [|done].
    apply rstrip_of_nil_inv in R.
    assert (starts_kept Char.is_space (lstrip_of Char.is_space s))
      by apply lstrip_of_starts_kept.
    destruct (lstrip_of Char.is_space s) as [|c r] eqn:L.
    + apply lstrip_of_nil_inv in L. congruence.
    + simpl in *. rewrite H in R. done.
Qed.

(** ** The normaliser *)

Lemma spaced_collapse_go b s : spaced b (collapse_go b s) = true.
Proof.
  revert b. induction s as [|c r IH]; intros b; simpl; [done|].
  destruct (Char.is_space c) eqn:Hc.
  - destruct b; [apply IH|]. simpl. by rewrite IH.
  - simpl. rewrite Hc. apply IH.
Qed.

Lemma collapse_go_spaced b s : spaced b s = true → collapse_go b s = s.
Proof.
  revert b. induction s as [|c r IH]; intros b; simpl; [done|].
  destruct (Char.is_space c) eqn:Hc.
  - intros [[Hsp Hb%negb_true_iff]%andb_prop Hr]%andb_prop. subst b.
    apply Ascii.eqb_eq in Hsp. subst c. f_equal. by apply IH.
  - intros Hr. f_equal. by apply IH.
Qed.

Lemma spaced_weaken s : spaced true s = true → spaced false s = true.
Proof.
  destruct s as [|c r]; simpl; [done|].
  destruct (Char.is_space c); [|done].
  by rewrite andb_false_r.
Qed.

Lemma spaced_lstrip b s :
  spaced b s = true → spaced false (lstrip_of Char.is_space s) = true.
Proof.
  revert b. induction s as [|c r IH]; intros b; simpl; [done|].
  destruct (Char.is_space c) eqn:Hc.
  - intros [_ Hr]%andb_prop. eauto.
  - intros Hr. simpl. by rewrite Hc.
Qed.

Lemma spaced_rstrip b s :
  spaced b s = true → spaced b (rstrip_of Char.is_space s) = true.
Proof.
  revert b. induction s as [|c r IH]; intros b; simpl; [done|].
  destruct (Char.is_space c) eqn:Hc.
  - intros [Hcb Hr]%andb_prop. apply IH in Hr.
    destruct (rstrip_of Char.is_space r) eqn:E; [done|].
    simpl in *. rewrite Hc, Hcb. done.
  - intros Hr. apply IH in Hr.
    destruct (rstrip_of Char.is_space r) eqn:E; simpl in *; by rewrite Hc.
Qed.

Lemma collapse_ws_strip_collapse s :
  collapse_ws (strip (collapse_ws s)) = strip (collapse_ws s).
Proof.
  apply collapse_go_spaced, spaced_rstrip. eapply spaced_lstrip.
  apply spaced_collapse_go.
Qed.

Lemma collapse_go_lower b s :
  collapse_go b (str_lower s) = str_lower (collapse_go b s).
Proof.
  revert b. induction s as [|c r IH]; intros b; csimpl; [done|].
  rewrite is_space_lower. destruct (Char.is_space c), b; csimpl; by rewrite IH.
Qed.

Lemma str_lower_idemp s : str_lower (str_lower s) = str_lower s.
Proof.
  unfold str_lower. rewrite <- list_fmap_compose.
  apply list_fmap_ext. intros _ c _. apply lower_lower.
Qed.

Lemma strip_lower s : strip (str_lower s) = str_lower (strip s).
Proof. apply strip_of_fmap, is_space_lower. Qed.

Lemma plain_is_ascii c : plain c → (N_of_ascii c < 128)%N.
Proof. intros [?%word_is_ascii| ->]; [done|by vm_compute]. Qed.

Lemma plain_lower c : plain c → plain (Char.lower c).
Proof. intros [?| ->]; [left; by rewrite is_word_lower|by right]. Qed.

Lemma sub_non_word_plain s : Forall plain s → sub_non_word s = s.
Proof.
  unfold sub_non_word.
  induction 1 as [|c r Hc Hr IH]; csimpl; [done|].
  rewrite IH. f_equal.
  destruct Hc as [->| ->]; done.
Qed.

Lemma collapse_go_plain b s :
  Forall (λ c, Char.is_word c || Char.is_space c = true) s →
  Forall plain (collapse_go b s).
Proof.
  intros Hs. revert b.
  induction Hs as [|c r Hc Hr IH]; intros b; simpl; [done|].
  destruct (Char.is_space c) eqn:E.
  - destruct b; [done|]. constructor; [by right|done].
  - constructor; [|done]. left. by rewrite orb_false_r in Hc.
Qed.

Lemma sub_non_word_classes s :
  Forall (λ c, Char.is_word c || Char.is_space c = true) (sub_non_word s).
Proof.
  apply Forall_fmap, Forall_true. intros c. simpl.
  by destruct (Char.is_word c || Char.is_space c) eqn:E.
Qed.

Lemma encode_ascii_ignore_plain s :
  Forall plain s → encode_ascii_ignore (ustr_of s) = s.
Proof.
  induction 1 as [|c r Hc Hr IH]; [done|].
  unfold encode_ascii_ignore, ustr_of in *. csimpl.
  rewrite filter_cons_True by by apply plain_is_ascii.
  csimpl. by rewrite IH, ascii_N_embedding.
Qed.

Lemma ustr_of_plain_ascii s : Forall plain s → is_ascii_text (ustr_of s).
Proof. intros Hs. apply Forall_fmap. eapply Forall_impl; [done|]. apply plain_is_ascii. Qed.

Lemma nfd_sample_fixes_ascii : NFD_fixes_ascii sample_unicodedata.
Proof.
  intros u Hu. simpl. unfold nfd_sample.
  induction Hu as [|n r Hn Hr IH]; [done|].
  csimpl. rewrite IH. unfold nfd_sample_char.
  repeat case_match; try done;
    match goal with E : (_ =? _)%N = true |- _ => apply N.eqb_eq in E; lia end.
Qed.

Section CleanTextFacts.
Context `{U : Unicodedata}.

Lemma clean_text_trimmed text : clean_text text = str_lower (trimmed text).
Proof. done. Qed.

Lemma trimmed_plain text : Forall plain (trimmed text).
Proof. apply strip_of_Forall, collapse_go_plain, sub_non_word_classes. Qed.

Lemma clean_text_plain text : Forall plain (clean_text text).
Proof.
  rewrite clean_text_trimmed. apply Forall_fmap.
  eapply Forall_impl; [apply trimmed_plain|]. apply plain_lower.
Qed.

(** C7: the normaliser is idempotent: cleaning a cleaned text changes
    nothing. *)
Theorem clean_text_idempotent (x : ustr) :
  NFD_fixes_ascii U →
  clean_text (ustr_of (clean_text x)) = clean_text x.
Proof.
  intros HU.
  pose proof (clean_text_plain x) as Hplain.
  unfold clean_text at 1.
  rewrite (HU _ (ustr_of_plain_ascii _ Hplain)).
  rewrite (encode_ascii_ignore_plain _ Hplain), (sub_non_word_plain _ Hplain).
  rewrite clean_text_trimmed.
  unfold collapse_ws. rewrite collapse_go_lower, strip_lower, str_lower_idemp.
  f_equal. unfold trimmed.
  fold (collapse_ws (strip (collapse_ws
    (sub_non_word (encode_ascii_ignore (normalize_NFD x)))))).
  rewrite collapse_ws_strip_collapse. apply strip_idemp.
Qed.

End CleanTextFacts.

(** The raw text "Café!  \tRósa_1" comes out as "cafe rosa_1", and cleaning
    that again returns it. *)
Lemma clean_text_idempotent_witness :
  NFD_fixes_ascii sample_unicodedata ∧
  @clean_text sample_unicodedata
      [67; 97; 102; 233; 33; 32; 32; 9; 82; 243; 115; 97; 95; 49]%N
    = py "cafe rosa_1" ∧
  @clean_text sample_unicodedata (ustr_of (@clean_text sample_unicodedata
      [67; 97; 102; 233; 33; 32; 32; 9; 82; 243; 115; 97; 95; 49]%N))
    = @clean_text sample_unicodedata
      [67; 97; 102; 233; 33; 32; 32; 9; 82; 243; 115; 97; 95; 49]%N.
Proof.
  split; [apply nfd_sample_fixes_ascii|]. split; [reflexivity|].
  apply (@clean_text_idempotent sample_unicodedata), nfd_sample_fixes_ascii.
Defined.

(** ** Synonyms *)





(** ** Running computations *)

Ltac py_unfold :=
  unfold try_except, observe, modify_env, get_env, raise,
         mbind, Py_bind, mret, Py_ret in *.

Lemma trace_add_events evs e : trace (add_events evs e) = trace e ++ evs.
Proof.
  revert e. induction evs as [|ev evs IH]; intros e; simpl.
  - by rewrite app_nil_r.
  - rewrite IH. simpl. by rewrite <- app_assoc.
Qed.

Lemma add_events_app evs1 evs2 e :
  add_events (evs1 ++ evs2) e = add_events evs2 (add_events evs1 e).
Proof. apply foldl_app. Qed.

(** ** The catalog cache *)

Lemma timedelta_seconds_range d : 0 ≤ timedelta_seconds d < 86400.
Proof. unfold timedelta_seconds. apply Z.mod_pos_bound. lia. Qed.

(** Within a day of the build the test compares the age, in whole seconds,
    with the TTL. *)
Lemma timedelta_seconds_within_a_day d :
  0 ≤ d < 86400 * 1000000 → timedelta_seconds d = d / 1000000.
Proof.
  intros Hd. unfold timedelta_seconds. apply Z.mod_small.
  split; [apply Z.div_pos; lia|apply Z.div_lt_upper_bound; lia].
Qed.

(** Whole days drop out of the seconds field. *)
Lemma timedelta_seconds_days days r :
  0 ≤ r < 86400 * 1000000 →
  timedelta_seconds (days * 86400000000 + r) = r / 1000000.
Proof.
  intros Hr. unfold timedelta_seconds.
  replace (days * 86400000000 + r) with (r + (days * 86400) * 1000000) by lia.
  rewrite Z.div_add by lia.
  rewrite Z.mod_add by lia.
  apply Z.mod_small.
  split; [apply Z.div_pos; lia|apply Z.div_lt_upper_bound; lia].
Qed.

Section CatalogCache.
Context `{U : Unicodedata}.

(** The cache is answered from exactly when the seconds field of the age is
    below the TTL. *)
Lemma cache_valid_seconds e cache stamp now :
  catalog_cache e = Some cache → cache_timestamp e = Some stamp →
  cache_valid e false now = (timedelta_seconds (now - stamp) <? 300).
Proof. intros Hc Ht. unfold cache_valid. rewrite Hc, Ht. done. Qed.

(** During the first day after the build the cache is refreshed exactly when
    its age has reached 300 seconds. *)
Lemma cache_valid_first_day e cache stamp now :
  catalog_cache e = Some cache → cache_timestamp e = Some stamp →
  0 ≤ now - stamp < 86400 * 1000000 →
  cache_valid e false now = (now - stamp <? 300 * 1000000).
Proof.
  intros Hc Ht Hd. rewrite (cache_valid_seconds _ _ _ _ Hc Ht).
  rewrite timedelta_seconds_within_a_day by done.
  destruct (Z.ltb_spec (now - stamp) (300 * 1000000));
    [apply Z.ltb_lt, Z.div_lt_upper_bound; lia|].
  apply Z.ltb_ge. apply Z.div_le_lower_bound; lia.
Qed.

(** C2, what the code does: a cache whose age is a whole number of days
    plus less than 300 seconds is answered from and not rebuilt, however
    many days have passed. *)
Theorem stale_cache_reused_after_whole_days (e : Env) (cache : list CatalogEntry)
    (stamp days r : Z) :
  catalog_cache e = Some cache →
  cache_timestamp e = Some stamp →
  clock e = stamp + days * 86400000000 + r →
  0 ≤ r < 300 * 1000000 →
  _get_catalog_data false e = (Some cache, e).
Proof.
  intros Hc Ht Hclock Hr.
  unfold _get_catalog_data. py_unfold.
  rewrite (cache_valid_seconds _ _ _ _ Hc Ht), Hclock.
  replace (stamp + days * 86400000000 + r - stamp)
    with (days * 86400000000 + r) by lia.
  rewrite timedelta_seconds_days by lia.
  assert ((r / 1000000 <? 300) = true) as ->
    by (apply Z.ltb_lt, Z.div_lt_upper_bound; lia).
  by rewrite Hc.
Qed.

End CatalogCache.

Lemma stale_cache_reused_after_whole_days_witness :
  catalog_cache day_old_env = Some [old_entry] ∧
  cache_timestamp day_old_env = Some 0 ∧
  clock day_old_env = 0 + 1 * 86400000000 + 10000000 ∧
  0 ≤ 10000000 < 300 * 1000000 ∧
  300 * 1000000 < clock day_old_env - 0 ∧
  @_get_catalog_data sample_unicodedata false day_old_env
    = (Some [old_entry], day_old_env).
Proof.
  split; [reflexivity|]. split; [reflexivity|]. split; [reflexivity|].
  split; [lia|]. split; [by vm_compute|].
  apply (@stale_cache_reused_after_whole_days sample_unicodedata
           day_old_env [old_entry] 0 1 10000000); [reflexivity..|lia].
Defined.

(** ** Computations that only log *)

Section LoggingRules.
Context (P : Event → Prop).

Lemma Logging_ret {A} (a : A) : Logging P (mret a).
Proof. by exists (Some a), []. Qed.

Lemma Logging_raise {A} : Logging P (@raise A).
Proof. by exists None, []. Qed.

Lemma Logging_observe ev : P ev → Logging P (observe ev).
Proof. intros Hev. exists (Some tt), [ev]. split; [done|by constructor]. Qed.

Lemma Logging_bind {A B} (m : Py A) (f : A → Py B) :
  Logging P m → (∀ a, Logging P (f a)) → Logging P (m ≫= f).
Proof.
  intros (v & evs & Hm & HP) Hf. destruct v as [a|].
  - destruct (Hf a) as (w & evs' & Hfa & HP').
    exists w, (evs ++ evs'). split; [|by apply Forall_app].
    intros e. py_unfold. by rewrite Hm, Hfa, add_events_app.
  - exists None, evs. split; [|done]. intros e. py_unfold. by rewrite Hm.
Qed.

Lemma Logging_try {A} (m h : Py A) :
  Logging P m → Logging P h → Logging P (try_except m h).
Proof.
  intros (v & evs & Hm & HP) (w & evs' & Hh & HP'). destruct v as [a|].
  - exists (Some a), evs. split; [|done]. intros e. py_unfold. by rewrite Hm.
  - exists w, (evs ++ evs'). split; [|by apply Forall_app].
    intros e. py_unfold. by rewrite Hm, Hh, add_events_app.
Qed.

Lemma Logging_for_each {A S} (step : S → A → Py S) (st : S) (xs : list A) :
  (∀ st x, Logging P (step st x)) → Logging P (for_each step st xs).
Proof.
  intros Hstep. revert st. induction xs as [|x xs IH]; intros st; simpl.
  - apply Logging_ret.
  - apply Logging_bind; [apply Hstep|done].
Qed.

(** A handler that returns makes the whole [try] return. *)
Lemma Logging_try_total {A} (m : Py A) (x : A) :
  Logging P m →
  ∃ v evs, Logs (try_except m (mret x)) (Some v) evs ∧ Forall P evs.
Proof.
  intros (v & evs & Hm & HP). destruct v as [a|].
  - exists a, evs. split; [|done]. intros e. py_unfold. by rewrite Hm.
  - exists x, evs. split; [|done]. intros e. py_unfold. by rewrite Hm.
Qed.

End LoggingRules.

Ltac logging :=
  repeat match goal with
  | |- Logging _ (mret _) => apply Logging_ret
  | |- Logging _ raise => apply Logging_raise
  | |- Logging _ (observe _) => apply Logging_observe; simpl; try done
  | |- Logging _ (_ ≫= _) => apply Logging_bind; [|intros ?]
  | |- Logging _ (try_except _ _) => apply Logging_try
  | |- Logging _ (for_each _ _ _) => apply Logging_for_each; intros ? ?
  | |- Logging _ (match ?x with _ => _ end) => destruct x
  end.

Lemma scorer_run_engine_event ev : is_scorer_run ev → is_engine_event ev.
Proof. by destruct ev. Qed.

Lemma matcher_calls_app t1 t2 :
  matcher_calls (t1 ++ t2) = matcher_calls t1 ++ matcher_calls t2.
Proof. apply omap_app. Qed.

Lemma matcher_calls_scorer_runs evs : Forall is_scorer_run evs → matcher_calls evs = [].
Proof.
  induction 1 as [|ev evs Hev _ IH]; [done|].
  destruct ev; simpl in *; done.
Qed.

Section MatcherRuns.
Context `{F : Fuzz}.

Lemma Logging_run_extractOne s query choices :
  Logging is_scorer_run (run_extractOne s query choices).
Proof. unfold run_extractOne. logging. Qed.

Lemma Logging_frame_cell P row i : Logging P (frame_cell row i).
Proof. unfold frame_cell. logging. Qed.

Lemma Logging_find_catalog_entry P df2 m : Logging P (find_catalog_entry df2 m).
Proof.
  unfold find_catalog_entry.
  logging; try apply Logging_frame_cell; logging; apply Logging_frame_cell.
Qed.

(** The batch matcher always returns; it logs its own call and then scorer
    runs only; its value does not depend on the environment. *)
Lemma intelligent_fuzzy_match_run c df2 :
  ∃ evs, Forall is_scorer_run evs ∧
    ∀ e, intelligent_fuzzy_match c (search_key <$> df2) df2 e
         = (Some (match_of c df2), add_events (CalledMatcher c :: evs) e).
Proof.
  unfold match_of, intelligent_fuzzy_match.
  match goal with
  | |- context [try_except ?body (mret ?x)] =>
      destruct (Logging_try_total is_scorer_run body x) as (v & evs & Hrun & Hevs)
  end.
  { logging; try apply Logging_run_extractOne;
      try apply Logging_find_catalog_entry;
      logging; try apply Logging_run_extractOne;
      try apply Logging_find_catalog_entry;
      logging; try apply Logging_run_extractOne;
      try apply Logging_find_catalog_entry. }
  exists evs. split; [done|]. intros e.
  py_unfold. by rewrite !Hrun.
Qed.

End MatcherRuns.

(** ** [extractOne] *)

Lemma extract_fold_Some scorer query choices m0 s0 :
  ∃ m s, foldl (extract_step scorer query) (Some (m0, s0)) choices = Some (m, s)
         ∧ (m = m0 ∨ m ∈ choices).
Proof.
  revert m0 s0. induction choices as [|c cs IH]; intros m0 s0; simpl.
  - eauto.
  - unfold extract_step at 2.
    destruct (0 <=? scorer query c); [destruct (s0 <? scorer query c)|].
    + destruct (IH c (scorer query c)) as (m & s & -> & [->|?]);
        eexists _, _; split; try done; right; set_solver.
    + destruct (IH m0 s0) as (m & s & -> & [->|?]);
        eexists _, _; split; try done; [by left|right; set_solver].
    + destruct (IH m0 s0) as (m & s & -> & [->|?]);
        eexists _, _; split; try done; [by left|right; set_solver].
Qed.

(** With scores that reach the cutoff and at least one choice, [extractOne]
    returns one of the choices. *)
Lemma extractOne_Some scorer query choices :
  (∀ c, 0 ≤ scorer query c) → choices ≠ [] →
  ∃ m s, extractOne scorer query choices = Some (m, s) ∧ m ∈ choices.
Proof.
  intros Hpos Hne. destruct choices as [|c cs]; [done|].
  unfold extractOne. simpl. unfold extract_step at 2.
  assert ((0 <=? scorer query c) = true) as -> by (apply Z.leb_le, Hpos).
  destruct (extract_fold_Some scorer query cs c (scorer query c))
    as (m & s & -> & [->|?]); eexists _, _; split; try done; set_solver.
Qed.

(** ** The escalation cascade *)

Section Cascade.
Context `{F : Fuzz}.
Hypothesis percentages : scores_are_percentages F.

Lemma run_extractOne_Some s text keys :
  keys ≠ [] →
  ∃ m sc, extractOne (scorer_of s) text keys = Some (m, sc) ∧ m ∈ keys
          ∧ ∀ e, run_extractOne s text keys e
                 = (Some (m, sc), add_event (RanScorer s text) e).
Proof.
  intros Hne.
  destruct (extractOne_Some (scorer_of s) text keys) as (m & sc & Hx & Hin);
    [intros c; apply percentages|done|].
  exists m, sc. split; [done|]. split; [done|].
  intros e. unfold run_extractOne. py_unfold. by rewrite Hx.
Qed.

Lemma find_catalog_entry_total df2 m :
  Forall (λ r, 4 ≤ length (attrs r))%nat df2 →
  ∃ t, ∀ e, find_catalog_entry df2 m e = (Some t, e).
Proof.
  intros Hcols. unfold find_catalog_entry.
  destruct (List.find _ df2) as [row|] eqn:Hfind; [|by eexists].
  apply find_some in Hfind as [Hin _].
  apply list_elem_of_In in Hin.
  pose proof (proj1 (Forall_forall _ _) Hcols row Hin) as Hrow. simpl in Hrow.
  unfold frame_cell, frame_columns.
  destruct (attrs row) as [|a0 [|a1 [|a2 [|a3 rest]]]]; simpl in Hrow; try lia.
  case_bool_decide as H5.
  - destruct (lookup_lt_is_Some_2 ((a0 :: a1 :: a2 :: a3 :: rest) ++ [search_key row]) 5)
      as [c5 Hc5]; [done|].
    rewrite Hc5. by eexists.
  - by eexists.
Qed.

(** The batch matcher follows the cascade. *)
Lemma batch_matcher_cascade text df2 :
  df2 ≠ [] →
  Forall (λ r, 4 ≤ length (attrs r))%nat df2 →
  ∃ ran result,
    (∀ e, intelligent_fuzzy_match text (search_key <$> df2) df2 e
          = (Some result, add_events (matcher_events text ran) e))
    ∧ follows_cascade text (search_key <$> df2) ran result.
Proof.
  intros Hne Hcols.
  assert (search_key <$> df2 ≠ []) as Hkeys by (by destruct df2).
  set (keys := search_key <$> df2) in *.
  destruct (run_extractOne_Some TokenSort text keys Hkeys)
    as (mA & sA & HA & HinA & HrunA).
  destruct (run_extractOne_Some Partial text keys Hkeys)
    as (mB & sB & HB & HinB & HrunB).
  destruct (run_extractOne_Some TokenSet text keys Hkeys)
    as (mC & sC & HC & HinC & HrunC).
  simpl in HA, HB, HC.
  set (r1 := if sA <? 70 then adopt (mA, sA) (mB, sB) else (mA, sA)).
  set (r2 := if r1.2 <? 80 then adopt r1 (mC, sC) else r1).
  destruct (find_catalog_entry_total df2 r2.1 Hcols) as (t & Ht).
  destruct t as [[[[cid cat] var] col] gra].
  exists ([TokenSort] ++ (if sA <? 70 then [Partial] else [])
                      ++ (if r1.2 <? 80 then [TokenSet] else [])).
  exists {| best_match := r2.1; similarity := r2.2;
            matched_words := join_sorted
              (list_to_set (extract_words text) ∩ list_to_set (extract_words r2.1));
            missing_words := join_sorted
              (list_to_set (extract_words text) ∖ list_to_set (extract_words r2.1));
            catalog_id := cid; categoria := cat; variedad := var;
            color := col; grado := gra |}.
  split.
  - intros e. unfold intelligent_fuzzy_match. py_unfold.
    rewrite HrunA. subst r2 r1. unfold adopt in *. simpl in *.
    destruct (sA <? 70) eqn:E70; simpl in *.
    + rewrite HrunB.
      destruct (sA <? sB) eqn:EAB; simpl in *.
      * destruct (sB <? 80) eqn:E80; simpl in *.
        -- rewrite HrunC.
           destruct (sB <? sC) eqn:EBC; simpl in *; rewrite Ht; reflexivity.
        -- rewrite Ht. reflexivity.
      * destruct (sA <? 80) eqn:E80; simpl in *.
        -- rewrite HrunC.
           destruct (sA <? sC) eqn:EAC; simpl in *; rewrite Ht; reflexivity.
        -- rewrite Ht. reflexivity.
    + destruct (sA <? 80) eqn:E80; simpl in *.
      * rewrite HrunC.
        destruct (sA <? sC) eqn:EAC; simpl in *; rewrite Ht; reflexivity.
      * rewrite Ht. reflexivity.
  - exists (mA, sA), r1, r2. simpl.
    split; [done|]. split; [|split; [|split; [done|split; [|split]]]].
    + subst r1. destruct (sA <? 70); [eauto|done].
    + subst r2. destruct (r1.2 <? 80); [eauto|done].
    + intros H80. subst r2 r1.
      assert ((sA <? 70) = false) as -> by lia.
      simpl. assert ((sA <? 80) = false) as -> by lia. done.
    + by destruct r2.
    + subst r2 r1. unfold adopt. simpl.
      repeat (case_match; simpl in * ); done.
Qed.

End Cascade.

(** ** The row matcher *)

Lemma find_entry_by_key (catalog_data : list CatalogEntry) (k : pystr) :
  k ∈ entry_search_key <$> catalog_data →
  ∃ item, List.find (λ item, bool_decide (entry_search_key item = k)) catalog_data
          = Some item.
Proof.
  induction catalog_data as [|it data IH]; csimpl; [by intros ?%elem_of_nil|].
  intros Hin. case_bool_decide; [by eexists|].
  apply IH. apply elem_of_cons in Hin as [?|?]; [congruence|done].
Qed.

Section RowMatcher.
Context `{F : Fuzz}.

(** Empty or blank input: the guard answers with the empty result before
    any scorer runs. *)
Lemma row_matcher_blank text catalog_data e :
  is_blank text = true →
  _perform_fuzzy_matching text catalog_data e
  = (Some empty_match_result, add_events (matcher_events text []) e).
Proof.
  intros Hb. unfold _perform_fuzzy_matching. py_unfold.
  by rewrite strip_empty_blank, Hb.
Qed.

Hypothesis percentages : scores_are_percentages F.

Lemma row_matcher_cascade text catalog_data :
  is_blank text = false →
  row_search_keys catalog_data ≠ [] →
  ∃ ran result,
    (∀ e, _perform_fuzzy_matching text catalog_data e
          = (Some result, add_events (matcher_events text ran) e))
    ∧ follows_cascade text (row_search_keys catalog_data) ran result.
Proof.
  intros Hb Hkeys.
  assert (catalog_data ≠ []) as Hdata by (by intros ->).
  set (keys := row_search_keys catalog_data) in *.
  destruct (run_extractOne_Some percentages TokenSort text keys Hkeys)
    as (mA & sA & HA & HinA & HrunA).
  destruct (run_extractOne_Some percentages Partial text keys Hkeys)
    as (mB & sB & HB & HinB & HrunB).
  destruct (run_extractOne_Some percentages TokenSet text keys Hkeys)
    as (mC & sC & HC & HinC & HrunC).
  simpl in HA, HB, HC.
  set (r1 := if sA <? 70 then adopt (mA, sA) (mB, sB) else (mA, sA)).
  set (r2 := if r1.2 <? 80 then adopt r1 (mC, sC) else r1).
  assert (r2.1 ∈ keys) as Hin.
  { subst r2 r1. unfold adopt. simpl. repeat (case_match; simpl in * ); done. }
  destruct (find_entry_by_key catalog_data r2.1) as (item & Hitem).
  { by apply list_elem_of_filter in Hin as [_ ?]. }
  exists ([TokenSort] ++ (if sA <? 70 then [Partial] else [])
                      ++ (if r1.2 <? 80 then [TokenSet] else [])).
  exists {| best_match := r2.1; similarity := r2.2;
            matched_words := join_sorted
              (list_to_set (extract_words text) ∩ list_to_set (extract_words r2.1));
            missing_words := join_sorted
              (list_to_set (extract_words text) ∖ list_to_set (extract_words r2.1));
            catalog_id := entry_catalog_id item;
            categoria := entry_categoria item; variedad := entry_variedad item;
            color := entry_color item; grado := entry_grado item |}.
  split.
  - intros e. unfold _perform_fuzzy_matching. py_unfold.
    rewrite strip_empty_blank, Hb. simpl.
    rewrite (bool_decide_eq_false_2 _ Hdata).
    fold (row_search_keys catalog_data). fold keys.
    rewrite (bool_decide_eq_false_2 _ Hkeys).
    rewrite HrunA. subst r2 r1. unfold adopt in *. simpl in *.
    destruct (sA <? 70) eqn:E70; simpl in *.
    + rewrite HrunB.
      destruct (sA <? sB) eqn:EAB; simpl in *.
      * destruct (sB <? 80) eqn:E80; simpl in *.
        -- rewrite HrunC.
           destruct (sB <? sC) eqn:EBC; simpl in *; rewrite Hitem; reflexivity.
        -- rewrite Hitem. reflexivity.
      * destruct (sA <? 80) eqn:E80; simpl in *.
        -- rewrite HrunC.
           destruct (sA <? sC) eqn:EAC; simpl in *; rewrite Hitem; reflexivity.
        -- rewrite Hitem. reflexivity.
    + destruct (sA <? 80) eqn:E80; simpl in *.
      * rewrite HrunC.
        destruct (sA <? sC) eqn:EAC; simpl in *; rewrite Hitem; reflexivity.
      * rewrite Hitem. reflexivity.
  - exists (mA, sA), r1, r2. simpl.
    split; [done|]. split; [|split; [|split; [done|split; [|split]]]].
    + subst r1. destruct (sA <? 70); [eauto|done].
    + subst r2. destruct (r1.2 <? 80); [eauto|done].
    + intros H80. subst r2 r1.
      assert ((sA <? 70) = false) as -> by lia.
      simpl. assert ((sA <? 80) = false) as -> by lia. done.
    + by destruct r2.
    + done.
Qed.

(** C3: on a non-blank text and a catalog with at least one key, both
    matchers follow the escalation cascade: scorer A (token-sort) always
    runs; B (partial) runs exactly when the pick of A scores below 70 and
    replaces it only with a strictly greater score; C (token-set) runs
    exactly when the running pick scores below 80 and is adopted only when
    strictly greater; a pick of A that scores 80 or more is the result. *)
Theorem cascade_escalation (text : pystr) (df2 : list CatalogRow)
    (catalog_data : list CatalogEntry) :
  is_blank text = false →
  df2 ≠ [] →
  Forall (λ r, 4 ≤ length (attrs r))%nat df2 →
  row_search_keys catalog_data ≠ [] →
  (∃ ran result,
     (∀ e, intelligent_fuzzy_match text (search_key <$> df2) df2 e
           = (Some result, add_events (matcher_events text ran) e))
     ∧ follows_cascade text (search_key <$> df2) ran result)
  ∧
  (∃ ran result,
     (∀ e, _perform_fuzzy_matching text catalog_data e
           = (Some result, add_events (matcher_events text ran) e))
     ∧ follows_cascade text (row_search_keys catalog_data) ran result).
Proof.
  intros Hb Hdf2 Hcols Hkeys. split.
  - by apply batch_matcher_cascade.
  - by apply row_matcher_cascade.
Qed.

(** C1, the batch matcher: it has no guard for empty input.  Whatever the
    text, blank or not, its result names one of the search keys; with keys
    that are not empty it is never the empty result. *)
Theorem batch_matcher_blank_not_empty (text : pystr) (df2 : list CatalogRow) :
  is_blank text = true →
  df2 ≠ [] →
  Forall (λ r, 4 ≤ length (attrs r))%nat df2 →
  Forall (λ r, search_key r ≠ []) df2 →
  ∀ e, ∃ result,
    (intelligent_fuzzy_match text (search_key <$> df2) df2 e).1 = Some result
    ∧ best_match result ∈ search_key <$> df2
    ∧ result ≠ empty_match_result.
Proof.
  intros _ Hdf2 Hcols Hkeys e.
  destruct (batch_matcher_cascade percentages text df2 Hdf2 Hcols)
    as (ran & result & Hrun & (a & r1 & r2 & _ & _ & _ & _ & _ & Hres & Hin)).
  exists result. rewrite Hrun. split; [done|].
  assert (best_match result = r2.1) as Hbest by (by rewrite <- Hres).
  rewrite <- Hbest in Hin. split; [done|].
  intros ->. simpl in Hin.
  apply list_elem_of_fmap in Hin as (row & Hrow & Hrowin).
  by apply (proj1 (Forall_forall _ _) Hkeys row Hrowin).
Qed.

End RowMatcher.

(** ** A sample catalog and sample scorers *)

Lemma table_scorer_percentage table query choice :
  Forall (λ kv : pystr * pystr * Z, 0 ≤ kv.2 ≤ 100) table →
  0 ≤ table_scorer table query choice ≤ 100.
Proof.
  intros Htable. unfold table_scorer.
  destruct (is_empty (strip query)); [lia|].
  destruct (List.find _ table) as [kv|] eqn:Hfind; simpl; [|lia].
  apply find_some in Hfind as [Hin _]. apply list_elem_of_In in Hin.
  by apply (proj1 (Forall_forall _ _) Htable kv).
Qed.

Lemma sample_fuzz_percentages a b c :
  Forall (λ kv : pystr * pystr * Z, 0 ≤ kv.2 ≤ 100) a →
  Forall (λ kv : pystr * pystr * Z, 0 ≤ kv.2 ≤ 100) b →
  Forall (λ kv : pystr * pystr * Z, 0 ≤ kv.2 ≤ 100) c →
  scores_are_percentages (sample_fuzz a b c).
Proof. intros Ha Hb Hc [] q ch; simpl; by apply table_scorer_percentage. Qed.

Lemma noisy_fuzz_percentages : scores_are_percentages noisy_fuzz.
Proof. apply sample_fuzz_percentages; repeat constructor; simpl; lia. Qed.

(** On "frdm rozes red" all three scorers run, in the order A, B, C, and the
    pick of C is the result of both matchers. *)
Lemma cascade_escalation_witness :
  (∃ ran result,
     (∀ e, @intelligent_fuzzy_match noisy_fuzz (py "frdm rozes red")
             (search_key <$> sample_frame) sample_frame e
           = (Some result, add_events (matcher_events (py "frdm rozes red") ran) e))
     ∧ @follows_cascade noisy_fuzz (py "frdm rozes red")
         (search_key <$> sample_frame) ran result)
  ∧ (∃ ran result,
     (∀ e, @_perform_fuzzy_matching noisy_fuzz (py "frdm rozes red") sample_catalog e
           = (Some result, add_events (matcher_events (py "frdm rozes red") ran) e))
     ∧ @follows_cascade noisy_fuzz (py "frdm rozes red")
         (row_search_keys sample_catalog) ran result)
  ∧ @intelligent_fuzzy_match noisy_fuzz (py "frdm rozes red")
      (search_key <$> sample_frame) sample_frame env0
    = (Some (roses_result 90 "red" "frdm rozes"),
       add_events (matcher_events (py "frdm rozes red") [TokenSort; Partial; TokenSet])
                  env0)
  ∧ @_perform_fuzzy_matching noisy_fuzz (py "frdm rozes red") sample_catalog env0
    = (Some (roses_result 90 "red" "frdm rozes"),
       add_events (matcher_events (py "frdm rozes red") [TokenSort; Partial; TokenSet])
                  env0).
Proof.
  assert (Forall (λ r, 4 ≤ length (attrs r))%nat sample_frame) as Hcols
    by (repeat constructor; simpl; lia).
  destruct (@cascade_escalation noisy_fuzz noisy_fuzz_percentages
              (py "frdm rozes red") sample_frame sample_catalog)
    as [Hbatch Hrow]; [reflexivity|done|exact Hcols|by vm_compute|].
  split; [exact Hbatch|]. split; [exact Hrow|].
  split; by vm_compute.
Defined.

(** The empty text against the sample frame: the first key comes back with
    similarity 0 and the attributes of its row. *)
Lemma batch_matcher_blank_not_empty_witness :
  is_blank (py "") = true ∧
  @intelligent_fuzzy_match noisy_fuzz (py "") (search_key <$> sample_frame)
      sample_frame env0
    = (Some (roses_result 0 "" ""),
       add_events (matcher_events (py "") [TokenSort; Partial; TokenSet]) env0) ∧
  ∃ result,
    (@intelligent_fuzzy_match noisy_fuzz (py "") (search_key <$> sample_frame)
       sample_frame env0).1 = Some result
    ∧ best_match result ∈ search_key <$> sample_frame
    ∧ result ≠ empty_match_result.
Proof.
  split; [reflexivity|]. split; [by vm_compute|].
  apply (@batch_matcher_blank_not_empty noisy_fuzz noisy_fuzz_percentages
           (py "") sample_frame); [reflexivity|done|..];
    repeat constructor; simpl; try lia; done.
Defined.

(** ** The memoised matching loop *)

Lemma fresh_calls_elem seen inputs c :
  c ∈ fresh_calls seen inputs ↔ c ∈ inputs ∧ c ≠ NN ∧ c ∉ seen.
Proof.
  revert seen. induction inputs as [|x rest IH]; intros seen; simpl.
  - rewrite elem_of_nil. naive_solver.
  - repeat case_bool_decide; rewrite ?elem_of_cons, IH, ?elem_of_union,
      ?elem_of_singleton; destruct (decide (c = x)) as [->|]; naive_solver.
Qed.

Lemma fresh_calls_NoDup seen inputs : NoDup (fresh_calls seen inputs).
Proof.
  revert seen. induction inputs as [|x rest IH]; intros seen; simpl.
  - constructor.
  - repeat case_bool_decide; try apply IH.
    constructor; [|apply IH]. rewrite fresh_calls_elem.
    rewrite elem_of_union, elem_of_singleton. naive_solver.
Qed.

Section Memo.
Context `{F : Fuzz}.

Lemma matching_loop df2 inputs out cache :
  cache_sound df2 cache →
  ∃ evs cache',
    (∀ e, for_each (matching_step (search_key <$> df2) df2) (out, cache) inputs e
          = (Some (out ++ (columns_for df2 <$> inputs), cache'), add_events evs e))
    ∧ matcher_calls evs = fresh_calls (dom cache) inputs
    ∧ Forall is_engine_event evs.
Proof.
  revert out cache. induction inputs as [|c rest IH]; intros out cache Hsound.
  - exists [], cache. split; [|done]. intros e. simpl. by rewrite app_nil_r.
  - csimpl. unfold columns_for at 1.
    case_bool_decide as HNN.
    + destruct (IH (out ++ [duplicate_columns]) cache Hsound)
        as (evs & cache' & Hrun & Hcalls & Hkind).
      exists evs, cache'. split; [|done].
      intros e. py_unfold. simpl. by rewrite ?app_nil_r, Hrun, <- app_assoc.
    + destruct (cache !! c) as [r|] eqn:Hc.
      * assert (c ∈ dom cache) as Hdom by (apply elem_of_dom; eauto).
        rewrite (bool_decide_eq_true_2 _ Hdom).
        destruct (IH (out ++ [columns_of r]) cache Hsound)
          as (evs & cache' & Hrun & Hcalls & Hkind).
        exists evs, cache'. split; [|done].
        intros e. py_unfold. simpl. rewrite Hc. simpl.
        by rewrite ?app_nil_r, Hrun, <- app_assoc, (Hsound c r Hc).
      * assert (c ∉ dom cache) as Hdom by (by apply not_elem_of_dom).
        rewrite (bool_decide_eq_false_2 _ Hdom).
        destruct (intelligent_fuzzy_match_run c df2) as (sevs & Hsevs & Hm).
        assert (cache_sound df2 (<[c := match_of c df2]> cache)) as Hsound'.
        { intros c' r'. rewrite lookup_insert.
          case_decide; [intros [= <-]; by subst|apply Hsound]. }
        destruct (IH (out ++ [columns_of (match_of c df2)])
                     (<[c := match_of c df2]> cache) Hsound')
          as (evs & cache' & Hrun & Hcalls & Hkind).
        exists ((CalledMatcher c :: sevs) ++ evs), cache'. split; [|split].
        -- intros e. py_unfold. rewrite Hm. simpl. rewrite lookup_insert_eq. simpl.
           by rewrite ?app_nil_r, Hrun, <- app_assoc, add_events_app.
        -- rewrite matcher_calls_app. simpl.
           rewrite (matcher_calls_scorer_runs _ Hsevs), Hcalls.
           by rewrite dom_insert_L.
        -- apply Forall_app. split; [|done]. constructor; [done|].
           eapply Forall_impl; [done|]. apply scorer_run_engine_event.
Qed.

(** The memoised loop, run from any environment. *)
Lemma perform_enhanced_matching_run inputs df2 :
  ∃ evs,
    (∀ e, perform_enhanced_matching inputs df2 e
          = (Some (columns_for df2 <$> inputs), add_events evs e))
    ∧ matcher_calls evs = fresh_calls ∅ inputs
    ∧ Forall is_engine_event evs.
Proof.
  destruct (matching_loop df2 inputs [] ∅) as (evs & cache' & Hrun & Hcalls & Hkind).
  { intros c r. by rewrite lookup_empty. }
  exists evs. split; [|split; [by rewrite Hcalls, dom_empty_L|done]].
  intros e. unfold perform_enhanced_matching. py_unfold. by rewrite Hrun.
Qed.

Lemma naive_step_run df2 out c :
  ∃ evs, ∀ e, naive_step (search_key <$> df2) df2 out c e
              = (Some (out ++ [columns_for df2 c]), add_events evs e).
Proof.
  unfold naive_step, columns_for. case_bool_decide as HNN.
  - by exists [].
  - destruct (intelligent_fuzzy_match_run c df2) as (sevs & Hsevs & Hm).
    exists (CalledMatcher c :: sevs). intros e. py_unfold. by rewrite Hm.
Qed.

Lemma naive_loop df2 inputs out :
  ∃ evs, ∀ e, for_each (naive_step (search_key <$> df2) df2) out inputs e
              = (Some (out ++ (columns_for df2 <$> inputs)), add_events evs e).
Proof.
  revert out. induction inputs as [|c rest IH]; intros out.
  - exists []. intros e. simpl. by rewrite app_nil_r.
  - destruct (naive_step_run df2 out c) as (evs1 & Hstep).
    destruct (IH (out ++ [columns_for df2 c])) as (evs2 & Hrun).
    exists (evs1 ++ evs2). intros e. csimpl. py_unfold.
    rewrite Hstep, Hrun. by rewrite <- app_assoc, add_events_app.
Qed.

(** C5: within one invocation the memoised matcher returns what the naive
    matcher returns; rows with the same cleaned text get the same result
    columns; and the matcher is entered exactly once for every distinct
    cleaned text other than the duplicate marker. *)
Theorem memoised_matching_correct (cleaned_inputs : list pystr)
    (df2 : list CatalogRow) (e : Env) :
  let run := perform_enhanced_matching cleaned_inputs df2 e in
  run.1 = (naive_matching cleaned_inputs df2 e).1
  ∧ run.1 = Some (columns_for df2 <$> cleaned_inputs)
  ∧ (∀ out i j c,
       run.1 = Some out →
       cleaned_inputs !! i = Some c → cleaned_inputs !! j = Some c →
       out !! i = out !! j)
  ∧ ∃ calls,
      matcher_calls (trace run.2) = matcher_calls (trace e) ++ calls
      ∧ NoDup calls
      ∧ ∀ c, c ∈ calls ↔ c ∈ cleaned_inputs ∧ c ≠ NN.
Proof.
  intros run. subst run.
  destruct (perform_enhanced_matching_run cleaned_inputs df2)
    as (evs & Hrun & Hcalls & _).
  destruct (naive_loop df2 cleaned_inputs []) as (nevs & Hnaive).
  rewrite Hrun. unfold naive_matching. rewrite Hnaive. simpl.
  split; [done|]. split; [done|]. split.
  - intros out i j c [= <-] Hi Hj. by rewrite !list_lookup_fmap, Hi, Hj.
  - exists (fresh_calls ∅ cleaned_inputs).
    rewrite trace_add_events, matcher_calls_app, Hcalls.
    split; [done|]. split; [apply fresh_calls_NoDup|].
    intros c. rewrite fresh_calls_elem, elem_of_empty. naive_solver.
Qed.

End Memo.

(** Four inputs, two of them the same text and one the duplicate marker:
    two matcher calls, and equal columns at positions 0 and 3. *)
Lemma memoised_matching_correct_witness :
  let inputs := [py "frdm rozes red"; NN; py "tulip"; py "frdm rozes red"] in
  let run := @perform_enhanced_matching noisy_fuzz inputs sample_frame env0 in
  matcher_calls (trace run.2) = [py "frdm rozes red"; py "tulip"]
  ∧ inputs !! 0%nat = Some (py "frdm rozes red")
  ∧ inputs !! 3%nat = Some (py "frdm rozes red")
  ∧ ∀ out, run.1 = Some out → out !! 0%nat = out !! 3%nat.
Proof.
  intros inputs run. split; [by vm_compute|]. split; [done|]. split; [done|].
  intros out Hout.
  destruct (@memoised_matching_correct noisy_fuzz inputs sample_frame env0)
    as (_ & _ & Hsame & _).
  by apply (Hsame out 0%nat 3%nat (py "frdm rozes red")).
Defined.

(** ** Duplicate suppression *)





(** ** The batch orchestrator *)

Section Orchestrator.
Context `{U : Unicodedata} `{F : Fuzz}.





End Orchestrator.

Section DuplicateSuppression.
Context `{U : Unicodedata} `{F : Fuzz}.


End DuplicateSuppression.



(** ** The row reprocessor *)


Lemma get_rules_run e : get_client_synonyms_blacklist e = (Some (rules_read e), e).
Proof.
  unfold get_client_synonyms_blacklist, rules_read. py_unfold.
  by destruct (rule_store_readable e).
Qed.

Lemma update_store_run synonyms_list blacklist_list e :
  update_client_synonyms_blacklist synonyms_list blacklist_list e
  = (Some (rule_store_writable e),
     if rule_store_writable e
     then set_rule_store {| synonyms := concat synonyms_list;
                            blacklist_input := blacklist_list |} e
     else e).
Proof.
  unfold update_client_synonyms_blacklist. py_unfold.
  by destruct (rule_store_writable e).
Qed.

Lemma concat_synonyms_list_of d : concat (synonyms_list_of d) = d.
Proof. induction d as [|kv d IH]; csimpl; [done|]. by rewrite IH. Qed.

Section Reprocessor.
Context `{U : Unicodedata} `{D : Datetime} `{F : Fuzz}.



Lemma Logging_row_matcher_body P text catalog_data :
  (∀ s q, P (RanScorer s q)) →
  ∃ v evs, Logs (_perform_fuzzy_matching text catalog_data) (Some v)
                (CalledMatcher text :: evs) ∧ Forall P evs.
Proof.
  intros HP. unfold _perform_fuzzy_matching.
  match goal with
  | |- context [try_except ?body (mret ?x)] =>
      destruct (Logging_try_total P body x) as (v & evs & Hrun & Hevs)
  end.
  { assert (∀ s q ch, Logging P (run_extractOne s q ch)) as Hx.
    { intros. unfold run_extractOne. logging. }
    logging; try apply Hx; logging; try apply Hx; logging; try apply Hx; logging. }
  exists v, evs. split; [|done]. intros e. py_unfold. by rewrite Hrun.
Qed.

(** The row matcher always returns. *)
Lemma row_matcher_total text catalog_data :
  ∃ result evs, ∀ e, _perform_fuzzy_matching text catalog_data e
                     = (Some result, add_events (CalledMatcher text :: evs) e).
Proof.
  destruct (Logging_row_matcher_body (λ _, True) text catalog_data)
    as (v & evs & Hrun & _); [done|].
  by exists v, evs.
Qed.

End Reprocessor.



Section Reprocess.
Context `{U : Unicodedata} `{D : Datetime} `{F : Fuzz}.



End Reprocess.

(** ** Sample rows and environments for the reprocessor *)




(** ** Stable sorting by a key *)


Section SortedByKey.
Context {A : Type} (key : A → Z).







End SortedByKey.


(** ** Whole-phrase matches *)








(** ** Removal of the matches *)













(** ** Words joined by single blanks *)

Lemma split_go_tokens cur s :
  Forall (λ c, Char.is_space c = false) cur → Forall is_token (split_go cur s).
Proof.
  assert (∀ c cur, Forall (λ c, Char.is_space c = false) (c :: cur) →
                   is_token (rev (c :: cur))) as Htoken.
  { intros c cur' Hcur. split.
    - simpl. by destruct (rev cur').
    - by apply Forall_rev. }
  revert cur. induction s as [|c r IH]; intros cur Hcur; simpl.
  - destruct cur; [done|]. constructor; [by apply Htoken|done].
  - destruct (Char.is_space c) eqn:Hc.
    + destruct cur; [by apply IH|]. constructor; [by apply Htoken|by apply IH].
    + apply IH. by constructor.
Qed.

Lemma split_tokens s : Forall is_token (split s).
Proof. by apply split_go_tokens. Qed.


Lemma join_tokens_nonempty sep w ws : is_token w → join sep (w :: ws) ≠ [].
Proof. intros [Hne _]. simpl. destruct ws; by destruct w. Qed.






(** ** The blacklist pass *)




(** * Part III: the further functions *)

(** ** Tokens, [split] and [join] *)

Lemma split_go_nonblank cur w s :
  Forall (λ c, Char.is_space c = false) w →
  split_go cur (w ++ s) = split_go (rev w ++ cur) s.
Proof.
  revert cur. induction w as [|c w IH]; intros cur Hw; simpl; [done|].
  inversion Hw as [|? ? Hc Hw']; subst. rewrite Hc, IH by done.
  by rewrite <- app_assoc.
Qed.

Lemma split_go_flush cur s :
  cur ≠ [] → split_go cur (Char.space :: s) = rev cur :: split s.
Proof. intros Hcur. simpl. by destruct cur. Qed.

Lemma split_go_end cur : cur ≠ [] → split_go cur [] = [rev cur].
Proof. intros Hcur. simpl. by destruct cur. Qed.

Lemma split_join_tokens ws : Forall is_token ws → split (join (py " ") ws) = ws.
Proof.
  induction 1 as [|w ws [Hne Hw] Hws IH]; [done|].
  assert (rev w ++ [] ≠ []) as Hrev.
  { rewrite app_nil_r. intros H%(f_equal (@rev _)). by rewrite rev_involutive in H. }
  destruct ws as [|w' ws].
  - simpl. unfold split. rewrite <- (app_nil_r w) at 1.
    rewrite split_go_nonblank, split_go_end by done.
    by rewrite app_nil_r, rev_involutive.
  - change (join (py " ") (w :: w' :: ws))
      with (w ++ Char.space :: join (py " ") (w' :: ws)).
    unfold split at 1. rewrite split_go_nonblank, split_go_flush by done.
    by rewrite IH, app_nil_r, rev_involutive.
Qed.

(** [split] sees neither outer blanks nor the length of a run of blanks. *)
Lemma split_go_blanks cur s t :
  forallb Char.is_space s = true →
  split_go cur (s ++ t)
  = match s, cur with
    | [], _ | _, [] => split_go cur t
    | _ :: _, _ :: _ => rev cur :: split_go [] t
    end.
Proof.
  revert cur. induction s as [|c s IH]; intros cur Hs; simpl in *.
  - by destruct cur.
  - apply andb_true_iff in Hs as [Hc Hs]. rewrite Hc.
    destruct cur as [|x cur]; rewrite IH by done; by destruct s.
Qed.


Lemma rstrip_of_blank_tail s :
  ∃ t, s = rstrip_of Char.is_space s ++ t ∧ forallb Char.is_space t = true.
Proof.
  induction s as [|c s (t & Hs & Ht)]; simpl; [by exists []|].
  destruct (rstrip_of Char.is_space s) as [|x r] eqn:Hr.
  - destruct (Char.is_space c) eqn:Hc.
    + exists (c :: t). simpl in *. rewrite Hc, Ht. by rewrite Hs at 1.
    + exists t. simpl in *. by rewrite Hs at 1.
  - exists t. split; [|done]. simpl. by rewrite Hs at 1.
Qed.



(** The collapse of the blanks followed by the trimming is [split] followed
    by [join]. *)
Lemma rstrip_cons_keep c s :
  Char.is_space c = false →
  rstrip_of Char.is_space (c :: s) = c :: rstrip_of Char.is_space s.
Proof. intros Hc. simpl. rewrite Hc. by destruct (rstrip_of _ s). Qed.

Lemma join_split_collapse s :
  (∀ cur, cur ≠ [] → Forall (λ c, Char.is_space c = false) cur →
     join (py " ") (split_go cur s)
     = rev cur ++ rstrip_of Char.is_space (collapse_go false s))
  ∧ join (py " ") (split_go [] s) = rstrip_of Char.is_space (collapse_go true s).
Proof.
  induction s as [|c s [IHA IHB]].
  - split; [|done]. intros cur Hcur _. rewrite split_go_end by done.
    simpl. by rewrite app_nil_r.
  - destruct (Char.is_space c) eqn:Hc.
    + split.
      * intros cur Hcur Hnb.
        assert (collapse_go false (c :: s) = Char.space :: collapse_go true s) as ->
          by (simpl; by rewrite Hc).
        assert (split_go cur (c :: s) = rev cur :: split_go [] s) as ->
          by (simpl; rewrite Hc; by destruct cur).
        pose proof (split_tokens s) as Htok. unfold split in Htok.
        destruct (split_go [] s) as [|w ws] eqn:Hsplit.
        -- simpl in IHB. cbn [rstrip_of]. rewrite <- IHB. simpl.
           by rewrite app_nil_r.
        -- change (join (py " ") (rev cur :: w :: ws))
             with (rev cur ++ Char.space :: join (py " ") (w :: ws)).
           rewrite IHB. f_equal.
           inversion Htok as [|? ? Hw _]; subst.
           pose proof (join_tokens_nonempty (py " ") w ws Hw) as Hne.
           rewrite IHB in Hne. cbn [rstrip_of].
           by destruct (rstrip_of Char.is_space (collapse_go true s)).
      * simpl. by rewrite Hc.
    + split.
      * intros cur Hcur Hnb. simpl. rewrite Hc.
        rewrite IHA; [|done|by constructor].
        rewrite rstrip_cons_keep by done. simpl. by rewrite <- app_assoc.
      * simpl. rewrite Hc. rewrite IHA; [|done|by repeat constructor].
        by rewrite rstrip_cons_keep.
Qed.

Lemma lstrip_collapse_go s :
  lstrip_of Char.is_space (collapse_go false s) = collapse_go true s.
Proof.
  assert (∀ t, lstrip_of Char.is_space (collapse_go true t) = collapse_go true t) as Hkeep.
  { induction t as [|c t IH]; simpl; [done|].
    destruct (Char.is_space c) eqn:Hc; [done|]. simpl. by rewrite Hc. }
  destruct s as [|c s]; simpl; [done|].
  destruct (Char.is_space c) eqn:Hc; simpl.
  - apply Hkeep.
  - by rewrite Hc.
Qed.

Lemma strip_collapse_ws s : strip (collapse_ws s) = join (py " ") (split s).
Proof.
  unfold strip, strip_of, collapse_ws, split.
  rewrite lstrip_collapse_go. symmetry. apply join_split_collapse.
Qed.

Lemma clean_char_lower_plain c : plain c → clean_char (Char.lower c) = true.
Proof.
  intros [Hc| ->]; [|done]. revert Hc. by_char_cases c.
Qed.

Lemma str_lower_join sep ws :
  str_lower (join sep ws) = join (str_lower sep) (str_lower <$> ws).
Proof.
  unfold str_lower. induction ws as [|w [|w' ws] IH]; [done..|].
  change (join sep (w :: w' :: ws)) with (w ++ sep ++ join sep (w' :: ws)).
  rewrite !fmap_app, IH. done.
Qed.

Lemma is_token_lower w : is_token w → is_token (str_lower w).
Proof.
  intros [Hne Hw]. split; [by destruct w|].
  unfold str_lower. apply Forall_fmap. eapply Forall_impl; [done|].
  intros c Hc. simpl. by rewrite is_space_lower.
Qed.

Lemma is_blank_collapse_go b s : is_blank (collapse_go b s) = is_blank s.
Proof.
  revert b. unfold is_blank.
  induction s as [|c s IH]; intros b; simpl; [done|].
  destruct (Char.is_space c) eqn:Hc; simpl.
  - destruct b; simpl; by rewrite IH.
  - by rewrite Hc.
Qed.

Lemma is_blank_sub_non_word s :
  is_blank (sub_non_word s) = true ↔ Forall (λ c, Char.is_word c = false) s.
Proof.
  unfold is_blank, sub_non_word. induction s as [|c s IH]; csimpl.
  - split; [by constructor|done].
  - rewrite andb_true_iff, IH, Forall_cons.
    assert (Char.is_space (if Char.is_word c || Char.is_space c then c else Char.space)
            = true ↔ Char.is_word c = false) as ->; [|done].
    destruct (Char.is_word c) eqn:Hw; simpl.
    + rewrite (word_not_space c Hw). split; done.
    + destruct (Char.is_space c) eqn:Hs; [by rewrite Hs|done].
Qed.

Lemma str_lower_nil_inv s : str_lower s = [] → s = [].
Proof. by destruct s. Qed.

Section CleanTextForm.
Context `{U : Unicodedata}.

(** X1: whatever the text, [clean_text] returns small letters, digits,
    underscores and blanks only; the result has no outer blank and no two
    blanks in a row, so that splitting it at blanks and joining the words
    with one blank gives it back; and it is empty exactly when the encoded
    text holds no word character. *)
Theorem clean_text_normal_form (text : ustr) :
  let out := clean_text text in
  Forall (λ c, clean_char c = true) out
  ∧ join (py " ") (split out) = out
  ∧ Forall is_token (split out)
  ∧ (out = [] ↔ Forall (λ c, Char.is_word c = false)
                       (encode_ascii_ignore (normalize_NFD text))).
Proof.
  intros out. subst out. rewrite clean_text_trimmed.
  split; [|split; [|split]].
  - unfold str_lower. apply Forall_fmap.
    eapply Forall_impl; [apply trimmed_plain|].
    intros c Hc. by apply clean_char_lower_plain.
  - unfold trimmed. rewrite strip_collapse_ws, str_lower_join.
    change (str_lower (py " ")) with (py " ").
    rewrite split_join_tokens; [done|].
    apply Forall_fmap. eapply Forall_impl; [apply split_tokens|].
    intros w. apply is_token_lower.
  - apply split_tokens.
  - unfold trimmed. split.
    + intros H%str_lower_nil_inv.
      apply is_blank_sub_non_word.
      rewrite <- (is_blank_collapse_go false), <- strip_empty_blank.
      unfold collapse_ws in H. by rewrite H.
    + intros H%is_blank_sub_non_word.
      rewrite <- (is_blank_collapse_go false), <- strip_empty_blank in H.
      unfold collapse_ws. by destruct (strip _).
Qed.

End CleanTextForm.

(** ** The search keys *)

Lemma split_go_app_space cur s t :
  split_go cur (s ++ Char.space :: t) = split_go cur s ++ split t.
Proof.
  revert cur. induction s as [|c s IH]; intros cur.
  - simpl. by destruct cur.
  - simpl. destruct (Char.is_space c); [destruct cur|]; by rewrite IH.
Qed.

Lemma words_of_app_space a b :
  words_of (a ++ Char.space :: b) = words_of a ++ words_of b.
Proof.
  unfold words_of, sub_non_word. rewrite fmap_app, fmap_cons.
  apply (split_go_app_space []).
Qed.

Lemma words_of_join ws : words_of (join (py " ") ws) = concat (words_of <$> ws).
Proof.
  induction ws as [|w [|w' ws] IH]; [done| |].
  - simpl. by rewrite app_nil_r.
  - change (join (py " ") (w :: w' :: ws))
      with (w ++ Char.space :: join (py " ") (w' :: ws)).
    by rewrite words_of_app_space, IH.
Qed.

Lemma lstrip_of_blank_head s :
  ∃ l, s = l ++ lstrip_of Char.is_space s ∧ forallb Char.is_space l = true.
Proof.
  induction s as [|c s (l & Hs & Hl)]; simpl; [by exists []|].
  destruct (Char.is_space c) eqn:Hc.
  - exists (c :: l). simpl. rewrite Hc, Hl. by rewrite Hs at 1.
  - by exists [].
Qed.

Lemma sub_non_word_blank l :
  forallb Char.is_space l = true → sub_non_word l = l.
Proof.
  unfold sub_non_word. induction l as [|c l IH]; csimpl; [done|].
  intros [Hc Hl]%andb_true_iff. rewrite Hc, orb_true_r. by rewrite IH.
Qed.

Lemma split_go_blank_tail cur r t :
  forallb Char.is_space t = true → split_go cur (r ++ t) = split_go cur r.
Proof.
  intros Ht. revert cur. induction r as [|c r IH]; intros cur; simpl.
  - rewrite <- (app_nil_r t), split_go_blanks by done. simpl.
    destruct t, cur; done.
  - destruct (Char.is_space c); [destruct cur|]; by rewrite IH.
Qed.

Lemma words_of_strip s : words_of (strip s) = words_of s.
Proof.
  destruct (lstrip_of_blank_head s) as (l & Hs & Hl).
  destruct (rstrip_of_blank_tail (lstrip_of Char.is_space s)) as (t & Hr & Ht).
  unfold strip, strip_of. rewrite Hs at 2. rewrite Hr at 2.
  unfold words_of, sub_non_word. rewrite !fmap_app.
  fold (sub_non_word l). fold (sub_non_word t).
  rewrite (sub_non_word_blank l), (sub_non_word_blank t) by done.
  unfold split. rewrite split_go_blanks by done.
  rewrite split_go_blank_tail by done. by destruct l.
Qed.

Lemma words_of_nil_filter (l : list pystr) :
  concat (words_of <$> filter (λ comp, comp ≠ []) l) = concat (words_of <$> l).
Proof.
  induction l as [|w l IH]; [done|].
  destruct (decide (w = [])) as [->|Hw].
  - rewrite filter_cons_False by naive_solver. done.
  - rewrite filter_cons_True by done. csimpl. by rewrite IH.
Qed.

Lemma seven_bit_encode s : seven_bit s → encode_ascii_ignore (ustr_of s) = s.
Proof.
  unfold seven_bit, encode_ascii_ignore, ustr_of.
  induction 1 as [|c s Hc Hs IH]; csimpl; [done|].
  rewrite filter_cons_True by done. csimpl.
  by rewrite IH, ascii_N_embedding.
Qed.

Lemma seven_bit_ascii_text s : seven_bit s → is_ascii_text (ustr_of s).
Proof. intros Hs. by apply Forall_fmap. Qed.

Lemma seven_bit_join sep ws :
  seven_bit sep → Forall seven_bit ws → seven_bit (join sep ws).
Proof.
  intros Hsep. unfold seven_bit in *.
  induction 1 as [|w ws Hw Hws IH]; [constructor|].
  destruct ws as [|w' ws]; [done|].
  change (join sep (w :: w' :: ws)) with (w ++ sep ++ join sep (w' :: ws)).
  by rewrite !Forall_app.
Qed.

Section SearchKeys.
Context `{U : Unicodedata} `{D : Datetime}.
Hypothesis nfd : NFD_fixes_ascii U.

Lemma clean_text_seven_bit s :
  seven_bit s → clean_text (ustr_of s) = str_lower (join (py " ") (words_of s)).
Proof.
  intros Hs. unfold clean_text.
  rewrite nfd by (by apply seven_bit_ascii_text).
  by rewrite seven_bit_encode, strip_collapse_ws.
Qed.

(** X6: on attribute texts in the 7-bit range, where NFD changes
    nothing, the four places that compute a search key agree:
    [create_search_key], the catalog frame of [process_files], the key
    [_get_catalog_data] recomputes for a row without a stored key, and the
    key [save_as_staging_product] stores are all the lowered words of the
    four attributes joined by single blanks. *)
Theorem search_keys_agree (categoria variedad color grado : pystr)
    (more : list pystr) :
  seven_bit categoria → seven_bit variedad → seven_bit color → seven_bit grado →
  let key := str_lower (join (py " ")
               (words_of categoria ++ words_of variedad
                ++ words_of color ++ words_of grado)) in
  create_search_key (VStr categoria) (VStr variedad) (VStr color) (VStr grado) = key
  ∧ search_key (with_search_key (categoria :: variedad :: color :: grado :: more)) = key
  ∧ entry_search_key
      (catalog_item {| db_categoria := Some categoria; db_variedad := Some variedad;
                       db_color := Some color; db_grado := Some grado;
                       db_catalog_id := None; db_search_key := None |}) = key
  ∧ db_search_key (staging_row categoria variedad color grado) = Some key.
Proof.
  intros Ha Hb Hc Hd key.
  assert (seven_bit (py " ")) as Hsp by (repeat constructor).
  assert (seven_bit (join (py " ") [categoria; variedad; color; grado])) as Hjoin.
  { apply seven_bit_join; [done|]. by repeat constructor. }
  assert (words_of (join (py " ") [categoria; variedad; color; grado])
          = words_of categoria ++ words_of variedad
            ++ words_of color ++ words_of grado) as Hwords.
  { rewrite words_of_join. csimpl. by rewrite app_nil_r. }
  split; [|split; [|split]].
  - unfold create_search_key. csimpl.
    rewrite clean_text_seven_bit.
    + rewrite words_of_join, words_of_nil_filter. csimpl.
      by rewrite !words_of_strip, app_nil_r.
    + apply seven_bit_join; [done|].
      apply Forall_forall. intros x [_ Hx]%list_elem_of_filter.
      assert (Forall seven_bit [strip categoria; strip variedad; strip color;
                                strip grado]) as Hall
        by (repeat constructor; by apply strip_of_Forall).
      by apply (proj1 (Forall_forall _ _) Hall).
  - unfold with_search_key. cbn [search_key].
    change (take 4 (categoria :: variedad :: color :: grado :: more))
      with [categoria; variedad; color; grado].
    rewrite clean_text_seven_bit by (by apply strip_of_Forall).
    by rewrite words_of_strip, Hwords.
  - unfold catalog_item. cbn [entry_search_key db_search_key db_categoria db_variedad db_color db_grado].
    change (fmt (Some categoria) ++ py " " ++ fmt (Some variedad) ++ py " "
            ++ fmt (Some color) ++ py " " ++ fmt (Some grado))
      with (join (py " ") [categoria; variedad; color; grado]).
    rewrite clean_text_seven_bit by (by apply strip_of_Forall).
    by rewrite words_of_strip, Hwords.
  - unfold staging_row. cbn [db_search_key]. f_equal.
    change (categoria ++ py " " ++ variedad ++ py " " ++ color ++ py " " ++ grado)
      with (join (py " ") [categoria; variedad; color; grado]).
    rewrite clean_text_seven_bit by done.
    by rewrite Hwords.
Qed.

End SearchKeys.

Lemma search_keys_agree_witness :
  seven_bit (py " Roses") ∧ seven_bit (py "Free-dom") ∧ seven_bit (py "")
  ∧ seven_bit (py "40 cm ")
  ∧ @create_search_key sample_unicodedata sample_datetime
      (VStr (py " Roses")) (VStr (py "Free-dom")) (VStr (py "")) (VStr (py "40 cm "))
    = py "roses free dom 40 cm"
  ∧ search_key (@with_search_key sample_unicodedata
      [py " Roses"; py "Free-dom"; py ""; py "40 cm "; py "C1"])
    = py "roses free dom 40 cm".
Proof.
  assert (seven_bit (py " Roses")) as Ha by (repeat constructor).
  assert (seven_bit (py "Free-dom")) as Hb by (repeat constructor).
  assert (seven_bit (py "")) as Hc by (repeat constructor).
  assert (seven_bit (py "40 cm ")) as Hd by (repeat constructor).
  destruct (@search_keys_agree sample_unicodedata sample_datetime
              nfd_sample_fixes_ascii _ _ _ _ [py "C1"] Ha Hb Hc Hd)
    as (H1 & H2 & _).
  split; [done|]. split; [done|]. split; [done|]. split; [done|].
  rewrite H1, H2. by vm_compute.
Defined.

(** ** [extract_words] *)


















(** ** The order of strings *)

Lemma str_leb_total a b : str_leb a b = true ∨ str_leb b a = true.
Proof.
  revert b. induction a as [|x a IH]; intros [|y b]; simpl; auto.
  destruct (N.ltb_spec (Char.code x) (Char.code y)); [by left|].
  destruct (N.ltb_spec (Char.code y) (Char.code x)); [by right|].
  apply IH.
Qed.

Lemma str_leb_antisym a b : str_leb a b = true → str_leb b a = true → a = b.
Proof.
  revert b. induction a as [|x a IH]; intros [|y b]; simpl; try done.
  destruct (N.ltb_spec (Char.code x) (Char.code y)) as [Hxy|Hxy];
    destruct (N.ltb_spec (Char.code y) (Char.code x)) as [Hyx|Hyx];
    try done; try lia.
  intros H1 H2. f_equal; [|by apply IH].
  unfold Char.code in *. assert (N_of_ascii x = N_of_ascii y) as Heq by lia.
  apply (f_equal ascii_of_N) in Heq. by rewrite !ascii_N_embedding in Heq.
Qed.

Lemma str_leb_trans a b c :
  str_leb a b = true → str_leb b c = true → str_leb a c = true.
Proof.
  revert b c. induction a as [|x a IH]; intros [|y b] [|z c]; simpl; try done.
  destruct (N.ltb_spec (Char.code x) (Char.code y));
    destruct (N.ltb_spec (Char.code y) (Char.code x));
    destruct (N.ltb_spec (Char.code y) (Char.code z));
    destruct (N.ltb_spec (Char.code z) (Char.code y));
    destruct (N.ltb_spec (Char.code x) (Char.code z));
    destruct (N.ltb_spec (Char.code z) (Char.code x));
    try done; try lia.
  apply IH.
Qed.

(** ** Sorting by a total order *)

Section SortedByOrder.
Context {A : Type} (leb : A → A → bool).

Lemma sorted_insert_permutation x l : sorted_insert leb x l ≡ₚ x :: l.
Proof.
  induction l as [|y l IH]; simpl; [done|].
  destruct (leb x y); [done|]. rewrite IH. apply perm_swap.
Qed.

Lemma sorted_by_permutation l : sorted_by leb l ≡ₚ l.
Proof.
  induction l as [|x l IH]; simpl; [done|].
  by rewrite sorted_insert_permutation, IH.
Qed.

Hypothesis leb_total : ∀ a b, leb a b = true ∨ leb b a = true.
Hypothesis leb_trans : ∀ a b c, leb a b = true → leb b c = true → leb a c = true.

Lemma sorted_insert_ordered x l :
  StronglySorted (λ a b, leb a b = true) l →
  StronglySorted (λ a b, leb a b = true) (sorted_insert leb x l).
Proof.
  induction 1 as [|y l Hl IH Hy]; simpl; [by repeat constructor|].
  destruct (leb x y) eqn:E.
  - constructor; [by constructor|]. constructor; [done|].
    eapply Forall_impl; [done|]. intros z Hz. by eapply leb_trans.
  - constructor; [done|].
    rewrite sorted_insert_permutation. constructor; [|done].
    by destruct (leb_total x y) as [H|H]; [congruence|].
Qed.

Lemma sorted_by_ordered l : StronglySorted (λ a b, leb a b = true) (sorted_by leb l).
Proof.
  induction l as [|x l IH]; simpl; [constructor|]. by apply sorted_insert_ordered.
Qed.

End SortedByOrder.

Lemma sorted_strings_ascending (l : list pystr) :
  NoDup l → ascending (sorted_by str_leb l).
Proof.
  intros Hnd.
  assert (NoDup (sorted_by str_leb l)) as Hnd'
    by (by rewrite sorted_by_permutation).
  pose proof (sorted_by_ordered str_leb str_leb_total str_leb_trans l) as Hs.
  unfold ascending. induction Hs as [|x r Hr IH Hx]; [constructor|].
  apply NoDup_cons in Hnd' as [Hx' Hnd'].
  constructor; [by apply IH|].
  apply Forall_forall. intros y Hy. split.
  - by apply (proj1 (Forall_forall _ _) Hx).
  - intros ->. done.
Qed.

(** Two ascending lists with the same elements are the same list: the
    result of [sorted(set(...))] does not depend on the order in which the
    set hands out its elements. *)
Lemma ascending_unique (l1 l2 : list pystr) :
  ascending l1 → ascending l2 → (∀ x, x ∈ l1 ↔ x ∈ l2) → l1 = l2.
Proof.
  unfold ascending. intros H1. revert l2.
  induction H1 as [|x l1 Hl1 IH Hx]; intros l2 H2 Heq.
  - destruct l2 as [|y l2]; [done|]. exfalso.
    apply (elem_of_nil y), Heq. by left.
  - destruct H2 as [|y l2 Hl2 Hy].
    { exfalso. apply (elem_of_nil x), Heq. by left. }
    assert (x = y) as ->.
    { assert (x ∈ y :: l2) as Hxin by (apply Heq; by left).
      assert (y ∈ x :: l1) as Hyin by (apply Heq; by left).
      apply elem_of_cons in Hxin as [?|Hxin]; [done|].
      apply elem_of_cons in Hyin as [?|Hyin]; [done|].
      apply str_leb_antisym.
      - by apply (proj1 (Forall_forall _ _) Hx y).
      - by apply (proj1 (Forall_forall _ _) Hy x). }
    f_equal. apply IH; [done|]. intros z. split.
    + intros Hz. assert (z ∈ y :: l2) as Hz' by (apply Heq; by right).
      apply elem_of_cons in Hz' as [->|?]; [|done].
      by destruct (proj1 (Forall_forall _ _) Hx y Hz) as [_ ?].
    + intros Hz. assert (z ∈ y :: l1) as Hz' by (apply Heq; by right).
      apply elem_of_cons in Hz' as [->|?]; [|done].
      by destruct (proj1 (Forall_forall _ _) Hy y Hz) as [_ ?].
Qed.


(** ** The value of the matchers *)

Lemma extract_fold_elem scorer query choices best m s :
  foldl (extract_step scorer query) best choices = Some (m, s) →
  best = Some (m, s) ∨ m ∈ choices.
Proof.
  revert best. induction choices as [|c cs IH]; intros best; simpl; [by left|].
  intros [Hb|?]%IH; [|right; by right].
  unfold extract_step in Hb.
  destruct (0 <=? scorer query c); [|by left].
  destruct best as [[m0 s0]|].
  - destruct (s0 <? scorer query c); [|by left].
    injection Hb as <- <-. right. by left.
  - injection Hb as <- <-. right. by left.
Qed.

Lemma extractOne_elem scorer query choices m s :
  extractOne scorer query choices = Some (m, s) → m ∈ choices.
Proof. by intros [?|?]%extract_fold_elem. Qed.


Section MatcherValues.
Context `{F : Fuzz}.

Lemma cascade_pick_elem text keys m sc :
  cascade_pick text keys = Some (m, sc) → m ∈ keys.
Proof.
  unfold cascade_pick, adopt.
  destruct (extractOne token_sort_ratio text keys) as [[mA sA]|] eqn:EA; [|done].
  apply extractOne_elem in EA. simpl.
  destruct (sA <? 70).
  - destruct (extractOne partial_ratio text keys) as [[mB sB]|] eqn:EB; [|done].
    apply extractOne_elem in EB. simpl.
    destruct (sA <? sB); simpl.
    + destruct (sB <? 80); [|by intros [= <- <-]].
      destruct (extractOne token_set_ratio text keys) as [[mC sC]|] eqn:EC; [|done].
      apply extractOne_elem in EC. simpl.
      destruct (sB <? sC); by intros [= <- <-].
    + destruct (sA <? 80); [|by intros [= <- <-]].
      destruct (extractOne token_set_ratio text keys) as [[mC sC]|] eqn:EC; [|done].
      apply extractOne_elem in EC. simpl.
      destruct (sA <? sC); by intros [= <- <-].
  - simpl. destruct (sA <? 80); [|by intros [= <- <-]].
    destruct (extractOne token_set_ratio text keys) as [[mC sC]|] eqn:EC; [|done].
    apply extractOne_elem in EC. simpl.
    destruct (sA <? sC); by intros [= <- <-].
Qed.


End MatcherValues.

Lemma extract_fold_score scorer query choices best m s :
  foldl (extract_step scorer query) best choices = Some (m, s) →
  best = Some (m, s) ∨ s = scorer query m.
Proof.
  revert best. induction choices as [|c cs IH]; intros best; simpl; [by left|].
  intros [Hb|?]%IH; [|by right].
  unfold extract_step in Hb.
  destruct (0 <=? scorer query c); [|by left].
  destruct best as [[m0 s0]|].
  - destruct (s0 <? scorer query c); [|by left].
    injection Hb as <- <-. by right.
  - injection Hb as <- <-. by right.
Qed.

Lemma extractOne_score scorer query choices m s :
  extractOne scorer query choices = Some (m, s) → s = scorer query m.
Proof. by intros [?|?]%extract_fold_score. Qed.

Section MatcherFacts.
Context `{F : Fuzz}.

Lemma cascade_pick_score text keys m sc :
  cascade_pick text keys = Some (m, sc) →
  ∃ s, sc = scorer_of s text m.
Proof.
  unfold cascade_pick, adopt.
  destruct (extractOne token_sort_ratio text keys) as [[mA sA]|] eqn:EA; [|done].
  apply extractOne_score in EA. simpl.
  destruct (sA <? 70);
    [destruct (extractOne partial_ratio text keys) as [[mB sB]|] eqn:EB; [|done];
     apply extractOne_score in EB; simpl;
     destruct (sA <? sB); simpl|simpl];
    (match goal with
     | |- context [if ?s <? 80 then _ else _] =>
         destruct (s <? 80);
         [destruct (extractOne token_set_ratio text keys) as [[mC sC]|] eqn:EC;
            [|done];
          apply extractOne_score in EC; simpl;
          destruct (s <? sC)|]
     end);
    intros [= <- <-];
    first [by exists TokenSort | by exists Partial | by exists TokenSet].
Qed.

Lemma row_matcher_value text catalog_data e r :
  (_perform_fuzzy_matching text catalog_data e).1 = Some r →
  r ≠ empty_match_result →
  is_blank text = false
  ∧ ∃ m sc item,
      cascade_pick text (row_search_keys catalog_data) = Some (m, sc)
      ∧ List.find (λ item, bool_decide (entry_search_key item = m)) catalog_data
        = Some item
      ∧ r = {| best_match := m; similarity := sc;
               matched_words := join_sorted
                 (list_to_set (extract_words text) ∩ list_to_set (extract_words m));
               missing_words := join_sorted
                 (list_to_set (extract_words text) ∖ list_to_set (extract_words m));
               catalog_id := entry_catalog_id item;
               categoria := entry_categoria item;
               variedad := entry_variedad item;
               color := entry_color item;
               grado := entry_grado item |}.
Proof.
  unfold _perform_fuzzy_matching, run_extractOne, cascade_pick, adopt.
  fold (row_search_keys catalog_data).
  py_unfold. simpl. rewrite strip_empty_blank.
  destruct (is_blank text); simpl; [by intros [= <-]|].
  case_bool_decide; simpl; [by intros [= <-]|].
  case_bool_decide; simpl; [by intros [= <-]|].
  set (keys := row_search_keys catalog_data).
  destruct (extractOne token_sort_ratio text keys) as [[mA sA]|]; simpl;
    [|by intros [= <-]].
  destruct (sA <? 70); simpl;
    [destruct (extractOne partial_ratio text keys) as [[mB sB]|]; simpl;
       [|by intros [= <-]];
     destruct (sA <? sB); simpl|];
    (match goal with
     | |- context [if ?s <? 80 then _ else _] =>
         destruct (s <? 80); simpl;
         [destruct (extractOne token_set_ratio text keys) as [[mC sC]|]; simpl;
            [|by intros [= <-]];
          destruct (s <? sC); simpl|]
     end);
    (match goal with
     | |- context [List.find ?f catalog_data] =>
         destruct (List.find f catalog_data) as [item|] eqn:Hfind; simpl;
         [|by intros [= <-]]
     end);
    intros [= <-] _; (split; [done|]);
    eexists _, _, _;
    (split; [reflexivity|]); (split; [exact Hfind|reflexivity]).
Qed.

Lemma row_matcher_no_keys text catalog_data e :
  row_search_keys catalog_data = [] →
  (_perform_fuzzy_matching text catalog_data e).1 = Some empty_match_result.
Proof.
  intros Hkeys. unfold _perform_fuzzy_matching.
  fold (row_search_keys catalog_data). rewrite Hkeys.
  py_unfold. simpl.
  destruct (is_empty (strip text)); simpl; [done|].
  case_bool_decide; simpl; done.
Qed.




Hypothesis percentages : scores_are_percentages F.

(** X13: with scores between 0 and 100, [_perform_fuzzy_matching] always
    returns; the result is the empty one exactly when the text is blank or
    the catalog has no entry with a search key; any other result has a best
    match that is not empty, a similarity between 0 and 100, and the
    identifier and attributes of the first catalog entry with that key. *)
Theorem row_match_sound (text : pystr) (catalog_data : list CatalogEntry)
    (e : Env) :
  ∃ r,
    (_perform_fuzzy_matching text catalog_data e).1 = Some r
    ∧ (r = empty_match_result
       ↔ is_blank text = true ∨ row_search_keys catalog_data = [])
    ∧ (r ≠ empty_match_result →
       ∃ item,
         List.find (λ item, bool_decide (entry_search_key item = best_match r))
                   catalog_data = Some item
         ∧ best_match r ≠ []
         ∧ 0 ≤ similarity r ≤ 100
         ∧ catalog_id r = entry_catalog_id item
         ∧ categoria r = entry_categoria item
         ∧ variedad r = entry_variedad item
         ∧ color r = entry_color item
         ∧ grado r = entry_grado item).
Proof.
  destruct (row_matcher_total text catalog_data) as (r & evs & Hrun).
  specialize (Hrun e).
  exists r. rewrite Hrun. split; [done|]. split; [split|].
  - intros ->.
    destruct (is_blank text) eqn:Hb; [by left|]. right.
    destruct (decide (row_search_keys catalog_data = [])) as [?|Hkeys]; [done|].
    exfalso.
    destruct (row_matcher_cascade percentages text catalog_data Hb Hkeys)
      as (ran & result & Hrun' & (a & r1 & r2 & _ & _ & _ & _ & _ & Hres & Hin)).
    rewrite Hrun' in Hrun. injection Hrun as Hr _. subst result.
    simpl in Hres. rewrite <- Hres in Hin. simpl in Hin.
    by apply list_elem_of_filter in Hin as [? _].
  - intros [Hb|Hkeys].
    + pose proof (row_matcher_blank text catalog_data e Hb) as H.
      rewrite Hrun in H. by injection H as ->.
    + pose proof (row_matcher_no_keys text catalog_data e Hkeys) as H.
      rewrite Hrun in H. simpl in H. by injection H as ->.
  - intros Hne.
    assert ((_perform_fuzzy_matching text catalog_data e).1 = Some r) as Hrun1
      by (by rewrite Hrun).
    destruct (row_matcher_value _ _ _ _ Hrun1 Hne)
      as (_ & m & sc & item & Hpick & Hfind & ->).
    exists item. simpl. split; [done|].
    pose proof (cascade_pick_elem _ _ _ _ Hpick) as Hin.
    apply list_elem_of_filter in Hin as [Hm _].
    destruct (cascade_pick_score _ _ _ _ Hpick) as (s & ->).
    split; [done|]. split; [apply percentages|]. done.
Qed.

End MatcherFacts.

(** ** Synonyms by key *)





(** ** What the blacklist pass keeps *)










(** ** Classification of the missing words *)





(** ** Batches of a list *)

Lemma batches_loop {A} (items : list A) (size : nat)
    (f : list (list A) → nat → list (list A)) (fuel i : nat) (acc : list (list A)) :
  (∀ batches i, f batches i
     = match take size (drop i items) with
       | [] => batches
       | x :: b => batches ++ [x :: b]
       end) →
  (1 ≤ size)%nat → (length items - i ≤ fuel)%nat →
  ∃ bs,
    foldl f acc (range_from fuel i (length items) size) = acc ++ bs
    ∧ concat bs = drop i items
    ∧ Forall (λ b, b ≠ [] ∧ (length b ≤ size)%nat) bs
    ∧ (∀ k b, bs !! k = Some b → (S k < length bs)%nat → length b = size)
    ∧ (length items - i ≤ length bs * size)%nat
    ∧ (length bs * size < length items - i + size)%nat.
Proof.
  intros Hf Hsize. revert i acc.
  induction fuel as [|fuel IH]; intros i acc Hfuel.
  - exists []. simpl. rewrite app_nil_r, drop_ge by lia.
    repeat split; try done; try lia.
  - cbn [range_from]. destruct (Nat.ltb_spec i (length items)) as [Hi|Hi].
    + cbn [foldl]. rewrite Hf.
      destruct (take size (drop i items)) as [|x b] eqn:Hb.
      { apply (f_equal length) in Hb. rewrite length_take, length_drop in Hb.
        simpl in Hb. lia. }
      destruct (IH (i + size)%nat (acc ++ [x :: b]))
        as (bs & Hrun & Hcat & Hall & Hfull & Hlo & Hhi); [lia|].
      exists ((x :: b) :: bs). rewrite Hrun, <- app_assoc.
      assert (length (x :: b) = Nat.min size (length items - i)) as Hlen.
      { rewrite <- Hb, length_take, length_drop. done. }
      assert (bs = [] ∨ (i + size < length items)%nat) as Hmore.
      { destruct bs as [|b1 bs]; [by left|right].
        apply Forall_cons in Hall as [[Hb1 _] _].
        assert (drop (i + size) items ≠ []) as Hrest.
        { rewrite <- Hcat. simpl. by destruct b1. }
        destruct (Nat.ltb_spec (i + size) (length items)); [done|].
        by rewrite drop_ge in Hrest by lia. }
      split; [done|]. split; [|split; [|split; [|split]]].
      * cbn [concat]. rewrite Hcat, <- Hb, <- drop_drop. apply take_drop.
      * constructor; [|done]. split; [done|]. lia.
      * intros [|k] b' Hk Hlast; simpl in Hk.
        -- injection Hk as <-. rewrite Hlen.
           destruct Hmore as [->|?]; [simpl in Hlast; lia|lia].
        -- apply (Hfull k b' Hk). simpl in Hlast. lia.
      * cbn [length]. rewrite Nat.mul_succ_l.
        destruct Hmore as [->|?]; simpl in *; lia.
      * cbn [length]. rewrite Nat.mul_succ_l.
        destruct Hmore as [->|?]; simpl in *; lia.
    + exists []. simpl. rewrite app_nil_r, drop_ge by lia.
      repeat split; try done; try lia.
Qed.

(** X8: the batches of [batch_process_list], concatenated, are the list,
    and no batch is empty.  A batch size of zero or less gives the whole
    list as one batch (no batch for an empty list); with a positive size
    every batch has at most that many items, every batch but the last
    exactly that many, and the number of batches is the length divided by
    the size, rounded up. *)
Theorem batch_process_list_batches {A} (items : list A) (batch_size : Z) :
  let batches := batch_process_list items batch_size in
  concat batches = items
  ∧ Forall (λ b, b ≠ []) batches
  ∧ (batch_size ≤ 0 → batches = match items with [] => [] | _ => [items] end)
  ∧ (0 < batch_size →
     Forall (λ b, Z.of_nat (length b) ≤ batch_size) batches
     ∧ (∀ k b, batches !! k = Some b → (S k < length batches)%nat →
               Z.of_nat (length b) = batch_size)
     ∧ Z.of_nat (length items) ≤ Z.of_nat (length batches) * batch_size
     ∧ Z.of_nat (length batches) * batch_size < Z.of_nat (length items) + batch_size).
Proof.
  intros batches. subst batches. unfold batch_process_list.
  destruct (Z.leb_spec batch_size 0) as [Hle|Hgt].
  - split; [|split; [|split]].
    + destruct items; simpl; [done|]. by rewrite app_nil_r.
    + destruct items; repeat constructor. done.
    + done.
    + lia.
  - cbv zeta. unfold py_range.
    match goal with
    | |- context [foldl ?f [] _] =>
        destruct (batches_loop items (Z.to_nat batch_size) f (length items) 0 [])
          as (bs & Hrun & Hcat & Hall & Hfull & Hlo & Hhi);
          [intros batches i; by destruct (take _ _)|lia|lia|]
    end.
    rewrite Hrun. simpl. rewrite drop_0 in Hcat.
    split; [done|]. split; [|split; [lia|]].
    + eapply Forall_impl; [done|]. by intros b [? _].
    + intros _. split; [|split; [|split]].
      * eapply Forall_impl; [done|]. intros b [_ ?]. lia.
      * intros k b Hk Hlast. rewrite (Hfull k b Hk Hlast). lia.
      * nia.
      * nia.
Qed.

(** ** Merging dictionaries *)

Lemma dict_get_put {V} (d : list (pystr * V)) k v k' :
  dict_get (dict_put d k v) k' = if decide (k = k') then Some v else dict_get d k'.
Proof.
  induction d as [|[k0 v0] d IH]; simpl.
  - case_bool_decide; by destruct (decide (k = k')).
  - case_bool_decide as E0; simpl.
    + subst k0. case_bool_decide; by destruct (decide (k = k')).
    + rewrite IH. case_bool_decide; destruct (decide (k = k')); congruence.
Qed.

Lemma dict_put_keys {V} (d : list (pystr * V)) k v :
  (dict_put d k v).*1 = if decide (k ∈ d.*1) then d.*1 else d.*1 ++ [k].
Proof.
  induction d as [|[k0 v0] d IH].
  - destruct (decide (k ∈ ([] : list (pystr * V)).*1)) as [H|_]; [|done].
    by apply elem_of_nil in H.
  - cbn [dict_put]. case_bool_decide as E0.
    + subst k0. destruct (decide (k ∈ ((k, v0) :: d).*1)) as [_|H]; [done|].
      destruct H. by left.
    + rewrite fmap_cons, IH. cbn [fst].
      destruct (decide (k ∈ d.*1)) as [Hin|Hin];
        destruct (decide (k ∈ ((k0, v0) :: d).*1)) as [Hin'|Hin']; try done.
      * destruct Hin'. rewrite fmap_cons. by right.
      * rewrite fmap_cons in Hin'. apply elem_of_cons in Hin' as [?|?]; [|done].
        simpl in *. congruence.
Qed.

Lemma dict_get_None {V} (d : list (pystr * V)) k :
  dict_get d k = None ↔ k ∉ d.*1.
Proof.
  induction d as [|[k0 v0] d IH]; csimpl.
  - split; [intros _; apply not_elem_of_nil|done].
  - case_bool_decide; rewrite ?not_elem_of_cons; [naive_solver|].
    rewrite IH. naive_solver.
Qed.

Lemma merge_item_get strategy merged k v k' :
  dict_get (merge_item strategy merged (k, v)) k'
  = if decide (k = k')
    then Some (from_option (λ current, merge_value strategy current v) v
                           (dict_get merged k))
    else dict_get merged k'.
Proof.
  unfold merge_item, merge_value.
  destruct (dict_get merged k) as [current|] eqn:Hk; simpl.
  - repeat case_bool_decide; try (destruct current, v);
      rewrite ?dict_get_put; destruct (decide (k = k')) as [<-|];
      simpl; congruence.
  - by rewrite dict_get_put.
Qed.

Lemma merge_item_keys strategy merged k v :
  (merge_item strategy merged (k, v)).*1
  = if decide (k ∈ merged.*1) then merged.*1 else merged.*1 ++ [k].
Proof.
  unfold merge_item.
  destruct (dict_get merged k) as [current|] eqn:Hk.
  - assert (k ∈ merged.*1) as Hin.
    { destruct (decide (k ∈ merged.*1)) as [|Hno]; [done|].
      apply dict_get_None in Hno. congruence. }
    destruct (decide (k ∈ merged.*1)) as [_|?]; [|done].
    repeat case_bool_decide; try done;
      try destruct current, v; rewrite dict_put_keys;
      by destruct (decide (k ∈ merged.*1)).
  - rewrite dict_put_keys. done.
Qed.

Lemma merge_loop_get strategy items merged k :
  dict_get (foldl (merge_item strategy) merged items) k
  = foldl (λ held v, Some (from_option (λ current, merge_value strategy current v)
                                        v held))
          (dict_get merged k) (values_for k items).
Proof.
  revert merged. unfold values_for.
  induction items as [|[k0 v0] items IH]; intros merged; [done|].
  cbn [foldl]. rewrite IH, merge_item_get.
  destruct (decide (k0 = k)) as [->|Hne].
  - rewrite filter_cons_True by done. done.
  - rewrite filter_cons_False by done. done.
Qed.

Lemma merge_loop_keys strategy items merged :
  NoDup merged.*1 →
  NoDup (foldl (merge_item strategy) merged items).*1
  ∧ ∀ k, k ∈ (foldl (merge_item strategy) merged items).*1
         ↔ k ∈ merged.*1 ∨ k ∈ items.*1.
Proof.
  revert merged. induction items as [|[k0 v0] items IH]; intros merged Hnd.
  - split; [done|]. intros k. csimpl. rewrite elem_of_nil. naive_solver.
  - cbn [foldl].
    destruct (IH (merge_item strategy merged (k0, v0))) as [Hnd' Hkeys].
    { rewrite merge_item_keys. destruct (decide (k0 ∈ merged.*1)); [done|].
      apply NoDup_app. repeat split; [done| |apply NoDup_singleton].
      intros x Hx ->%list_elem_of_singleton. done. }
    split; [done|]. intros k. rewrite Hkeys, merge_item_keys. csimpl.
    destruct (decide (k0 ∈ merged.*1)).
    + rewrite elem_of_cons. naive_solver.
    + rewrite elem_of_app, !elem_of_cons, elem_of_nil. naive_solver.
Qed.

Lemma merge_dictionaries_items dicts strategy :
  merge_dictionaries dicts strategy
  = foldl (merge_item strategy) [] (items_of dicts).
Proof.
  unfold merge_dictionaries.
  assert (∀ merged,
            foldl (λ merged dictionary,
                     match dictionary with
                     | None => merged
                     | Some d => foldl (merge_item strategy) merged d
                     end) merged dicts
            = foldl (merge_item strategy) merged (items_of dicts)) as H; [|apply H].
  unfold items_of.
  induction dicts as [|[d|] dicts IH]; intros merged; csimpl; [done| |].
  - by rewrite foldl_app, IH.
  - by rewrite IH.
Qed.

Lemma fold_held_last {V} (g : V → V → V) (held : option V) (vs : list V) :
  (∀ c v, g c v = v) →
  foldl (λ held v, Some (from_option (λ current, g current v) v held)) held vs
  = match last vs with Some v => Some v | None => held end.
Proof.
  intros Hg. revert held. induction vs as [|v vs IH]; intros held; [done|].
  cbn [foldl]. rewrite IH, last_cons.
  destruct (last vs); [done|]. destruct held; simpl; by rewrite ?Hg.
Qed.

Lemma fold_held_first {V} (g : V → V → V) (held : option V) (vs : list V) :
  (∀ c v, g c v = c) →
  foldl (λ held v, Some (from_option (λ current, g current v) v held)) held vs
  = match held with Some c => Some c | None => head vs end.
Proof.
  intros Hg. revert held. induction vs as [|v vs IH]; intros held; [by destruct held|].
  cbn [foldl]. rewrite IH. destruct held; simpl; by rewrite ?Hg.
Qed.

Lemma merge_value_last c v : merge_value (py "last_wins") c v = v.
Proof. done. Qed.

Lemma merge_value_first strategy c v :
  strategy ≠ py "last_wins" → strategy ≠ py "combine_lists" →
  merge_value strategy c v = c.
Proof.
  intros H1 H2. unfold merge_value.
  rewrite (bool_decide_eq_false_2 _ H1), (bool_decide_eq_false_2 _ H2).
  by case_bool_decide.
Qed.

Lemma merge_value_combine c v :
  merge_value (py "combine_lists") c v
  = match c, v with DList a, DList b => DList (a ++ b) | _, _ => v end.
Proof. done. Qed.

(** X9: [merge_dictionaries] returns every key of its dictionary
    arguments once (arguments that are no dictionaries are skipped); under
    "last_wins" a key holds its last value, and under every strategy that is
    neither "last_wins" nor "combine_lists", the unknown ones included, its
    first. *)
Theorem merge_dictionaries_by_key (dicts : list (option anydict))
    (conflict_strategy : pystr) :
  let merged := merge_dictionaries dicts conflict_strategy in
  NoDup merged.*1
  ∧ (∀ k, k ∈ merged.*1 ↔ k ∈ (items_of dicts).*1)
  ∧ (conflict_strategy = py "last_wins" →
     ∀ k, dict_get merged k = last (values_for k (items_of dicts)))
  ∧ (conflict_strategy ≠ py "last_wins" →
     conflict_strategy ≠ py "combine_lists" →
     ∀ k, dict_get merged k = head (values_for k (items_of dicts))).
Proof.
  intros merged. subst merged. rewrite merge_dictionaries_items.
  destruct (merge_loop_keys conflict_strategy (items_of dicts) []) as [Hnd Hkeys];
    [constructor|].
  split; [done|]. split; [|split].
  - intros k. rewrite Hkeys. csimpl. rewrite elem_of_nil. naive_solver.
  - intros -> k. rewrite merge_loop_get.
    rewrite (fold_held_last (merge_value (py "last_wins")))
      by apply merge_value_last.
    by destruct (last _).
  - intros H1 H2 k. rewrite merge_loop_get.
    rewrite (fold_held_first (merge_value conflict_strategy))
      by (intros; by apply merge_value_first).
    done.
Qed.

Lemma fold_combine_lists a lists :
  foldl (λ held v, Some (from_option
                           (λ current, merge_value (py "combine_lists") current v)
                           v held))
        (Some (DList a)) (DList <$> lists)
  = Some (DList (a ++ concat lists)).
Proof.
  revert a. induction lists as [|b lists IH]; intros a; csimpl.
  - by rewrite app_nil_r.
  - rewrite merge_value_combine, IH. by rewrite <- app_assoc.
Qed.

(** X10: under "combine_lists" a key whose values are all lists holds
    their concatenation in the order of the arguments; a value that is not a
    list replaces what was gathered before it and is itself replaced by the
    next list, so that only the lists after the last such value are
    combined. *)
Theorem merge_dictionaries_combine_lists (dicts : list (option anydict))
    (k : pystr) :
  let merged := merge_dictionaries dicts (py "combine_lists") in
  (∀ first lists,
     values_for k (items_of dicts) = DList <$> first :: lists →
     dict_get merged k = Some (DList (concat (first :: lists))))
  ∧ (∀ before v lists,
       values_for k (items_of dicts) = before ++ DOther v :: (DList <$> lists) →
       dict_get merged k
       = Some (match lists with
               | [] => DOther v
               | _ :: _ => DList (concat lists)
               end)).
Proof.
  intros merged. subst merged. rewrite merge_dictionaries_items. split.
  - intros first lists Hvals. rewrite merge_loop_get, Hvals. csimpl.
    apply fold_combine_lists.
  - intros before v lists Hvals. rewrite merge_loop_get, Hvals.
    rewrite foldl_app. cbn [foldl].
    set (held := foldl _ _ before).
    assert (Some (from_option
                    (λ current, merge_value (py "combine_lists") current (DOther v))
                    (DOther v) held) = Some (DOther v)) as ->.
    { destruct held as [[a|x]|]; done. }
    destruct lists as [|b lists]; [done|].
    csimpl. rewrite merge_value_combine. apply fold_combine_lists.
Qed.

(** ** Truncation *)

Lemma rfind_loop (c : N) (l : ustr) (i0 f0 : Z) :
  let r := (foldl (λ st x, (st.1 + 1, if (x =? c)%N then st.1 else st.2))
                  (i0, f0) l).2 in
  r = f0 ∨ (i0 ≤ r < i0 + Z.of_nat (length l)
            ∧ l !! Z.to_nat (r - i0) = Some c).
Proof.
  revert i0 f0. induction l as [|x l IH]; intros i0 f0; [by left|].
  cbn [foldl fst snd]. cbv zeta.
  destruct (IH (i0 + 1) (if (x =? c)%N then i0 else f0)) as [Hr|[Hr Hl]].
  - rewrite Hr. destruct (N.eqb_spec x c) as [->|]; [right|by left].
    split; [cbn [length]; lia|]. by rewrite Z.sub_diag.
  - right.
    match type of Hr with _ ≤ ?r ∧ _ => set (r' := r) in * end.
    split; [cbn [length]; lia|].
    assert (Z.to_nat (r' - i0) = S (Z.to_nat (r' - (i0 + 1)))) as -> by lia.
    done.
Qed.

Lemma rfind_spec c s stop :
  rfind c s stop = -1
  ∨ (0 ≤ rfind c s stop < Z.of_nat (length (slice_to s stop))
     ∧ slice_to s stop !! Z.to_nat (rfind c s stop) = Some c).
Proof.
  unfold rfind. destruct (rfind_loop c (slice_to s stop) 0 (-1)) as [H|[H1 H2]].
  - by left.
  - right. split; [lia|]. by rewrite Z.sub_0_r in H2.
Qed.

Lemma slice_to_take {A} (s : list A) (k : Z) :
  0 ≤ k ≤ Z.of_nat (length s) → slice_to s k = take (Z.to_nat k) s.
Proof.
  intros Hk. unfold slice_to, slice_bound.
  destruct (Z.ltb_spec k 0); [lia|]. f_equal. lia.
Qed.

Section Truncate.
Context `{F : FloatArith}.

(** X7: when the ellipsis is not longer than [max_length], the result of
    [truncate_text] is never longer than [max_length]; a text that fits
    comes back unchanged; a longer text becomes a prefix of itself followed
    by the ellipsis, the prefix being either [max_length - len(ellipsis)]
    characters long or cut just before a blank. *)
Theorem truncate_text_fits (text : ustr) (max_length : Z) (ellipsis : ustr) :
  float_sign_law F →
  Z.of_nat (length ellipsis) ≤ max_length →
  let out := truncate_text text max_length ellipsis in
  Z.of_nat (length out) ≤ max_length
  ∧ (Z.of_nat (length text) ≤ max_length → out = text)
  ∧ (max_length < Z.of_nat (length text) →
     ∃ kept, out = kept ++ ellipsis
             ∧ kept `prefix_of` text
             ∧ (length kept = Z.to_nat (max_length - Z.of_nat (length ellipsis))
                ∨ ∃ rest, text = kept ++ 32%N :: rest)).
Proof.
  intros Hlaw Hfit out. subst out. unfold truncate_text.
  destruct (Z.leb_spec (Z.of_nat (length text)) max_length) as [Hshort|Hlong].
  { split; [done|]. split; [done|]. lia. }
  cbv zeta.
  set (tp := max_length - Z.of_nat (length ellipsis)).
  assert (0 ≤ tp ≤ Z.of_nat (length text)) as Htp by (subst tp; lia).
  pose proof (rfind_spec 32 text tp) as Hfind.
  rewrite (slice_to_take text tp Htp) in *.
  rewrite length_take in Hfind.
  destruct (exceeds_seven_tenths (rfind 32 text tp) max_length) eqn:Hcmp.
  - apply Hlaw in Hcmp; [|lia].
    destruct Hfind as [Hfind|[Hr Hblank]]; [lia|].
    rewrite slice_to_take by lia.
    split; [|split; [lia|]].
    + rewrite length_app, length_take. lia.
    + intros _. exists (take (Z.to_nat (rfind 32 text tp)) text).
      split; [done|]. split; [apply prefix_take|]. right.
      apply lookup_take_Some in Hblank as [Hblank _].
      exists (drop (S (Z.to_nat (rfind 32 text tp))) text).
      rewrite <- (take_drop_middle _ _ _ Hblank) at 1. done.
  - split; [|split; [lia|]].
    + rewrite length_app, length_take. lia.
    + intros _. exists (take (Z.to_nat tp) text).
      split; [done|]. split; [apply prefix_take|]. left.
      rewrite length_take. lia.
Qed.

End Truncate.

Lemma sample_float_sign_law : float_sign_law sample_float_arith.
Proof. intros s m Hm H. simpl in H. lia. Qed.

Lemma truncate_text_fits_witness :
  float_sign_law sample_float_arith
  ∧ Z.of_nat (length (ustr_of (py "..."))) ≤ 20
  ∧ @truncate_text sample_float_arith
      (ustr_of (py "roses freedom red 40cm stems")) 20 (ustr_of (py "..."))
    = ustr_of (py "roses freedom red...")
  ∧ Z.of_nat (length (@truncate_text sample_float_arith
      (ustr_of (py "roses freedom red 40cm stems")) 20 (ustr_of (py "...")))) ≤ 20.
Proof.
  split; [apply sample_float_sign_law|]. split; [by vm_compute|].
  split; [by vm_compute|].
  apply (@truncate_text_fits sample_float_arith
           (ustr_of (py "roses freedom red 40cm stems")) 20 (ustr_of (py "..."))
           sample_float_sign_law).
  by vm_compute.
Defined.

(** ** Database names *)

(** X22: [get_client_database_name] gives a name for the four database
    types "main", "staging", "catalog" and "synonyms" and fails for every
    other; two names are equal only for the same client and the same type;
    and the main database is named as the module functions of [backend]
    name it. *)
Theorem database_names (client_id : pystr) :
  (∀ other type1 type2 name,
     get_client_database_name client_id type1 = Some name →
     get_client_database_name other type2 = Some name →
     client_id = other ∧ type1 = type2)
  ∧ (∀ db_type,
       get_client_database_name client_id db_type = None
       ↔ db_type ∉ [py "main"; py "staging"; py "catalog"; py "synonyms"])
  ∧ get_client_database_name client_id (py "main") = Some (main_database client_id).
Proof.
  split; [|split; [|done]].
  - intros other type1 type2 name. unfold get_client_database_name.
    repeat case_bool_decide; subst; try done;
      intros [= <-] [= Heq]; try done; split; congruence.
  - intros db_type. unfold get_client_database_name.
    rewrite !not_elem_of_cons.
    repeat case_bool_decide; subst; split; try done;
      try (intros (? & ? & ? & ? & _); congruence);
      intros _; repeat split; try done; apply not_elem_of_nil.
Qed.

(** ** The listing of the clients *)

Lemma startswith_app p s : startswith p (p ++ s) = true.
Proof.
  induction p as [|x p IH]; simpl; [done|]. by rewrite Ascii.eqb_refl.
Qed.

Lemma replace_go_skip k old new x s :
  length x = k → replace_go k old new (x ++ s) = replace_go 0 old new s.
Proof.
  revert k. induction x as [|c x IH]; intros k Hk; simpl in *; subst; [done|].
  by apply IH.
Qed.

Lemma replace_go_absent old new s :
  contains old s = false → replace_go 0 old new s = s.
Proof.
  induction s as [|c s IH]; [done|].
  cbn [contains replace_go]. intros [Hhead Htail]%orb_false_iff.
  rewrite Hhead. f_equal. by apply IH.
Qed.

Lemma str_replace_prefix old s :
  old ≠ [] → contains old s = false → str_replace old [] (old ++ s) = s.
Proof.
  intros Hold Hs. unfold str_replace.
  destruct old as [|c old]; [done|].
  pose proof (startswith_app (c :: old) s) as Hstart.
  cbn [app] in *. cbn [replace_go]. rewrite Hstart.
  replace (length (c :: old) - 1)%nat with (length old) by (simpl; lia).
  cbn [app]. rewrite replace_go_skip by done.
  by apply replace_go_absent.
Qed.

Lemma available_step_name clients row name :
  listed_db_name row = Some (Some name) →
  startswith (py "mapping_validation_") name = true →
  endswith (py "_system") name = false →
  available_step clients row
  = Some (if bool_decide (str_replace (py "mapping_validation_") [] name ∉ clients)
          then clients ++ [str_replace (py "mapping_validation_") [] name]
          else clients).
Proof.
  intros Hrow Hstart Hend. unfold available_step. rewrite Hrow.
  cbn [mbind option_bind].
  destruct name as [|x name]; [done|].
  cbv zeta. rewrite Hstart, Hend. cbn [andb negb]. by case_bool_decide.
Qed.

Lemma available_loop rows cs clients :
  Forall2 (λ row c, listed_db_name row = Some (Some (main_database c))) rows cs →
  Forall listable cs →
  NoDup clients →
  ∃ clients',
    for_each_opt available_step clients rows = Some clients'
    ∧ NoDup clients'
    ∧ ∀ c, c ∈ clients' ↔ c ∈ clients ∨ c ∈ cs.
Proof.
  intros Hrows. revert clients.
  induction Hrows as [|row c rows cs Hrow Hrows IH]; intros clients Hcs Hnd.
  - exists clients. split; [done|]. split; [done|]. set_solver.
  - apply Forall_cons in Hcs as [[Hc1 Hc2] Hcs].
    assert (available_step clients row
            = Some (if bool_decide (c ∉ clients) then clients ++ [c] else clients))
      as Hstep.
    { rewrite (available_step_name clients row (main_database c));
        [|done|apply startswith_app|done].
      unfold main_database. by rewrite str_replace_prefix. }
    cbn [for_each_opt]. rewrite Hstep. cbn [mbind option_bind].
    case_bool_decide as Hin.
    + destruct (IH (clients ++ [c])) as (clients' & Hrun & Hnd' & Hel); [done| |].
      { apply NoDup_app. repeat split; [done| |apply NoDup_singleton].
        intros x Hx ->%list_elem_of_singleton. done. }
      exists clients'. split; [done|]. split; [done|].
      intros x. rewrite Hel, elem_of_app, list_elem_of_singleton, elem_of_cons.
      naive_solver.
    + destruct (IH clients) as (clients' & Hrun & Hnd' & Hel); [done..|].
      exists clients'. split; [done|]. split; [done|].
      intros x. rewrite Hel, elem_of_cons. naive_solver.
Qed.

Lemma available_step_NoDup clients row clients' :
  NoDup clients → available_step clients row = Some clients' → NoDup clients'.
Proof.
  intros Hnd. unfold available_step.
  destruct (listed_db_name row) as [[[|c name]|]|]; simpl; try by intros [= <-].
  destruct (_ && _); [|by intros [= <-]].
  case_bool_decide as Hin; intros [= <-]; [|done].
  apply NoDup_app. repeat split; [done| |apply NoDup_singleton].
  intros x Hx ->%list_elem_of_singleton. done.
Qed.

Lemma available_loop_NoDup rows clients clients' :
  NoDup clients → for_each_opt available_step clients rows = Some clients' →
  NoDup clients'.
Proof.
  revert clients. induction rows as [|row rows IH]; intros clients Hnd; simpl.
  - by intros [= <-].
  - destruct (available_step clients row) as [clients1|] eqn:Hstep; simpl; [|done].
    apply IH. by eapply available_step_NoDup.
Qed.

(** X23: when the listing holds the main databases of clients whose
    identifiers neither contain the prefix of the database names nor make
    the name end in "_system", [get_available_clients] returns exactly those
    clients, each once, in ascending order; a listing that fails gives the
    empty list. *)
Theorem available_clients_listed (rows : list ListingRow) (clients : list pystr) :
  Forall2 (λ row c, listed_db_name row = Some (Some (main_database c)))
          rows clients →
  Forall listable clients →
  ascending (get_available_clients (Some rows))
  ∧ (∀ c, c ∈ get_available_clients (Some rows) ↔ c ∈ clients)
  ∧ ∀ other_rows, ascending (get_available_clients other_rows)
                  ∧ get_available_clients None = [].
Proof.
  intros Hrows Hcs.
  destruct (available_loop rows clients [] Hrows Hcs) as (found & Hrun & Hnd & Hel);
    [constructor|].
  unfold get_available_clients at 1 2. simpl. rewrite Hrun.
  split; [by apply sorted_strings_ascending|]. split.
  - intros c. rewrite sorted_by_permutation, Hel, elem_of_nil. naive_solver.
  - intros other. split; [|done].
    unfold get_available_clients.
    destruct other as [other|]; simpl; [|constructor].
    destruct (for_each_opt available_step [] other) as [found'|] eqn:Hrun';
      [|constructor].
    apply sorted_strings_ascending.
    eapply available_loop_NoDup; [|done]. constructor.
Qed.

Lemma available_clients_listed_witness :
  Forall2 (λ row c, listed_db_name row = Some (Some (main_database c)))
    [ DictRow [(py "Database (mapping_validation_%)", py "mapping_validation_zeta")];
      TupleRow [py "mapping_validation_acme"];
      ScalarRow (py "mapping_validation_zeta") ]
    [py "zeta"; py "acme"; py "zeta"]
  ∧ Forall listable [py "zeta"; py "acme"; py "zeta"]
  ∧ get_available_clients (Some
      [ DictRow [(py "Database (mapping_validation_%)", py "mapping_validation_zeta")];
        TupleRow [py "mapping_validation_acme"];
        ScalarRow (py "mapping_validation_zeta") ])
    = [py "acme"; py "zeta"]
  ∧ get_available_clients (Some
      [ TupleRow [py "mapping_validation_a_mapping_validation_b"];
        TupleRow [py "mapping_validation_system"];
        TupleRow [py "mapping_validation_north_system"] ])
    = [py "a_b"]
  ∧ get_available_clients (Some [TupleRow []; TupleRow [py "mapping_validation_acme"]])
    = [].
Proof.
  assert (Forall2 (λ row c, listed_db_name row = Some (Some (main_database c)))
    [ DictRow [(py "Database (mapping_validation_%)", py "mapping_validation_zeta")];
      TupleRow [py "mapping_validation_acme"];
      ScalarRow (py "mapping_validation_zeta") ]
    [py "zeta"; py "acme"; py "zeta"]) as Hrows by (repeat constructor).
  assert (Forall listable [py "zeta"; py "acme"; py "zeta"]) as Hcs
    by (repeat constructor).
  destruct (available_clients_listed _ _ Hrows Hcs) as (_ & _ & _).
  split; [done|]. split; [done|]. by vm_compute.
Defined.

(** ** Dictionaries *)

Lemma dict_set_put (d : pydict) k v : dict_set d k v = dict_put d k v.
Proof. induction d as [|[k0 v0] d IH]; simpl; [done|]. by rewrite IH. Qed.

Lemma dict_loop_get {V} (rows d0 : list (pystr * V)) k :
  dict_get (foldl (λ d kv, dict_put d kv.1 kv.2) d0 rows) k
  = match last_value rows k with Some v => Some v | None => dict_get d0 k end.
Proof.
  unfold last_value. revert d0.
  induction rows as [|[k0 v0] rows IH]; intros d0; [done|].
  cbn [foldl]. rewrite IH, dict_get_put. cbn [fst snd].
  destruct (decide (k0 = k)) as [->|Hne].
  - rewrite filter_cons_True by done. rewrite last_cons.
    by destruct (last (filter _ rows)).
  - rewrite filter_cons_False by done. done.
Qed.

Lemma dict_loop_keys {V} (rows d0 : list (pystr * V)) :
  NoDup d0.*1 → NoDup (foldl (λ d kv, dict_put d kv.1 kv.2) d0 rows).*1.
Proof.
  revert d0. induction rows as [|[k0 v0] rows IH]; intros d0 Hnd; [done|].
  cbn [foldl]. apply IH. rewrite dict_put_keys. cbn [fst].
  destruct (decide (k0 ∈ d0.*1)); [done|].
  apply NoDup_app. repeat split; [done| |apply NoDup_singleton].
  intros x Hx ->%list_elem_of_singleton. done.
Qed.

Lemma dict_loop_fresh {V} (rows d0 : list (pystr * V)) :
  NoDup (d0 ++ rows).*1 →
  foldl (λ d kv, dict_put d kv.1 kv.2) d0 rows = d0 ++ rows.
Proof.
  revert d0. induction rows as [|[k0 v0] rows IH]; intros d0 Hnd.
  - by rewrite app_nil_r.
  - cbn [foldl fst snd].
    assert (dict_put d0 k0 v0 = d0 ++ [(k0, v0)]) as ->.
    { rewrite fmap_app in Hnd. apply NoDup_app in Hnd as (_ & Hdis & _).
      assert (k0 ∉ d0.*1) as Hk0.
      { intros Hin. apply (Hdis k0 Hin). rewrite fmap_cons. by left. }
      clear -Hk0. induction d0 as [|[k1 v1] d0 IH]; [done|].
      cbn [dict_put]. rewrite fmap_cons in Hk0.
      apply not_elem_of_cons in Hk0 as [Hne Hk0]. simpl in Hne.
      rewrite bool_decide_eq_false_2 by done. simpl. f_equal. by apply IH. }
    rewrite IH; rewrite <- app_assoc; done.
Qed.

Lemma dict_get_first {V} (d : list (pystr * V)) k :
  NoDup d.*1 → dict_get d k = last_value d k.
Proof.
  unfold last_value. induction d as [|[k0 v0] d IH]; intros Hnd; [done|].
  rewrite fmap_cons in Hnd. apply NoDup_cons in Hnd as [Hk0 Hnd].
  cbn [dict_get]. case_bool_decide as E.
  - subst k0. rewrite filter_cons_True by done.
    assert (filter (λ kv : pystr * V, kv.1 = k) d = []) as ->; [|done].
    clear -Hk0. induction d as [|[k1 v1] d IH]; [done|].
    rewrite fmap_cons in Hk0. apply not_elem_of_cons in Hk0 as [Hne Hk0].
    rewrite filter_cons_False by (simpl in *; congruence). by apply IH.
  - rewrite filter_cons_False by done. by apply IH.
Qed.

Lemma dict_of_rows_put rows :
  dict_of_rows rows = foldl (λ d kv, dict_put d kv.1 kv.2) [] rows.
Proof.
  unfold dict_of_rows. generalize ([] : pydict).
  induction rows as [|kv rows IH]; intros d; [done|].
  cbn [foldl]. by rewrite dict_set_put, IH.
Qed.

Lemma dict_of_rows_NoDup rows : NoDup (dict_of_rows rows).*1.
Proof. rewrite dict_of_rows_put. apply dict_loop_keys. constructor. Qed.

Lemma dict_of_rows_dict d : NoDup d.*1 → dict_of_rows d = d.
Proof. intros Hnd. rewrite dict_of_rows_put. by apply (dict_loop_fresh d []). Qed.

Lemma dict_of_rows_get rows k : dict_get (dict_of_rows rows) k = last_value rows k.
Proof. rewrite dict_of_rows_put, dict_loop_get. by destruct (last_value rows k). Qed.



(** ** The rule store *)

(** X15: [update_client_synonyms_blacklist] reports whether the store
    could be written and changes nothing when it could not.  After a write,
    a read of a readable store gives the blacklist as written and, for every
    key, the last value written for it; a dictionary written item by item
    is read back as it was.  An unreadable store reads as no rules at all. *)
Theorem rule_store_round_trip (synonyms_list : list pydict)
    (blacklist_list : list pystr) (e : Env) :
  let run := update_client_synonyms_blacklist synonyms_list blacklist_list e in
  run.1 = Some (rule_store_writable e)
  ∧ (rule_store_writable e = false → run.2 = e)
  ∧ (rule_store_readable e = false →
     get_client_synonyms_blacklist run.2 = (Some no_rules, run.2))
  ∧ (rule_store_writable e = true → rule_store_readable e = true →
     ∃ read,
       get_client_synonyms_blacklist run.2 = (Some read, run.2)
       ∧ blacklist_input read = blacklist_list
       ∧ NoDup (synonyms read).*1
       ∧ (∀ k, dict_get (synonyms read) k = last_value (concat synonyms_list) k)
       ∧ (∀ d, NoDup d.*1 → synonyms_list = synonyms_list_of d →
               synonyms read = d)).
Proof.
  intros run. subst run. rewrite update_store_run. cbn [fst snd].
  split; [done|]. split; [by intros ->|]. split.
  - intros Hr. rewrite get_rules_run. unfold rules_read.
    destruct (rule_store_writable e); simpl; by rewrite Hr.
  - intros -> Hr. rewrite get_rules_run. unfold rules_read. simpl. rewrite Hr.
    eexists. split; [done|]. simpl. split; [done|].
    split; [apply dict_of_rows_NoDup|]. split; [apply dict_of_rows_get|].
    intros d Hnd ->. rewrite concat_synonyms_list_of. by apply dict_of_rows_dict.
Qed.

(** ** The rules in force for a batch *)

Lemma dict_union_get (a b : pydict) k :
  dict_get (dict_union a b) k
  = match last_value b k with Some v => Some v | None => dict_get a k end.
Proof.
  unfold dict_union.
  assert (foldl (λ d kv, dict_set d kv.1 kv.2) a b
          = foldl (λ d kv, dict_put d kv.1 kv.2) a b) as ->.
  { revert a. induction b as [|kv b IH]; intros a; [done|].
    cbn [foldl]. by rewrite dict_set_put, IH. }
  apply dict_loop_get.
Qed.

Section MergedRules.
Context `{S : SetOrder}.

(** X14: the rules in force for a batch.  Without a client they are the
    dictionary passed in.  With a client, whatever the state of the rule
    store, a synonym of the dictionary takes precedence over a stored one
    with the same key, every other stored synonym stays, and the blacklist
    holds every phrase of either source once. *)
Theorem merged_rules_precedence (dictionary : RuleSet) (e : Env) :
  set_order_law S →
  NoDup (synonyms dictionary).*1 →
  merged_rules dictionary false e = (Some dictionary, e)
  ∧ ∃ rules,
      merged_rules dictionary true e = (Some rules, e)
      ∧ (∀ k, dict_get (synonyms rules) k
              = match dict_get (synonyms dictionary) k with
                | Some v => Some v
                | None => dict_get (synonyms (rules_read e)) k
                end)
      ∧ NoDup (blacklist_input rules)
      ∧ (∀ p, p ∈ blacklist_input rules
              ↔ p ∈ blacklist_input (rules_read e) ∨ p ∈ blacklist_input dictionary).
Proof.
  intros Hlaw Hnd. split; [done|].
  unfold merged_rules. py_unfold. rewrite get_rules_run.
  eexists. split; [done|]. simpl. split; [|split].
  - intros k. by rewrite dict_union_get, (dict_get_first (synonyms dictionary)).
  - apply Hlaw.
  - intros p. destruct (Hlaw (blacklist_input (rules_read e)
                              ++ blacklist_input dictionary)) as [_ Hel].
    by rewrite Hel, elem_of_app.
Qed.

End MergedRules.

Lemma sample_set_order_law : set_order_law sample_set_order.
Proof.
  intros xs. split; [apply NoDup_remove_dups|].
  intros x. apply elem_of_remove_dups.
Qed.

Lemma merged_rules_precedence_witness :
  set_order_law sample_set_order
  ∧ NoDup [(py "rosas", py "rose")].*1
  ∧ @merged_rules sample_set_order
      {| synonyms := [(py "rosas", py "rose")]; blacklist_input := [py "stem"; py "box"] |}
      true store_up_env
    = (Some {| synonyms := [(py "rosas", py "rose")];
               blacklist_input := [py "stem"; py "box"] |}, store_up_env)
  ∧ @merged_rules sample_set_order
      {| synonyms := [(py "rosas", py "rose")]; blacklist_input := [py "stem"; py "box"] |}
      true store_down_env
    = (Some {| synonyms := [(py "rosas", py "rose")];
               blacklist_input := [py "stem"; py "box"] |}, store_down_env).
Proof.
  assert (NoDup [(py "rosas", py "rose")].*1) as Hnd
    by (apply NoDup_singleton).
  destruct (@merged_rules_precedence sample_set_order
              {| synonyms := [(py "rosas", py "rose")];
                 blacklist_input := [py "stem"; py "box"] |}
              store_up_env sample_set_order_law Hnd) as (_ & rules & Hrun & _).
  split; [apply sample_set_order_law|]. split; [done|].
  split; by vm_compute.
Defined.

(** ** The annotations of a reviewed row *)


Section Annotations.
Context `{D : Datetime}.







End Annotations.


(** ** The catalog and its cache *)

Section CatalogSources.
Context `{U : Unicodedata}.

(** X16: [_get_catalog_data] never fails.  When the table cannot be
    read it answers with the cached catalog, however old, or with the empty
    list, and changes nothing.  When it is forced, or there is no cache, it
    reads the table and caches the result with the time of the read; a call
    that follows at once is answered from that cache, whatever the table
    holds by then, and a call that follows [clear_cache] reads the table. *)
Theorem catalog_data_sources (force : bool) (e : Env) :
  (catalog_table e = None →
   _get_catalog_data force e = (Some (default [] (catalog_cache e)), e))
  ∧ (∀ rows, catalog_table e = Some rows →
       force = true ∨ catalog_cache e = None ∨ cache_timestamp e = None →
       _get_catalog_data force e
       = (Some (catalog_item <$> rows),
          set_cache (Some (catalog_item <$> rows)) (Some (clock e)) e))
  ∧ (∀ rows table,
       catalog_table e = Some rows →
       let e1 := set_catalog_table table (_get_catalog_data true e).2 in
       _get_catalog_data false e1 = (Some (catalog_item <$> rows), e1))
  ∧ (∀ rows,
       catalog_table e = Some rows →
       _get_catalog_data false (clear_cache e).2
       = (Some (catalog_item <$> rows),
          set_cache (Some (catalog_item <$> rows)) (Some (clock e)) e)).
Proof.
  assert (∀ e0 rows, catalog_table e0 = Some rows →
            force = true ∨ catalog_cache e0 = None ∨ cache_timestamp e0 = None →
            _get_catalog_data force e0
            = (Some (catalog_item <$> rows),
               set_cache (Some (catalog_item <$> rows)) (Some (clock e0)) e0))
    as Hread.
  { intros e0 rows Htable Hcold. unfold _get_catalog_data. py_unfold.
    assert (cache_valid e0 force (clock e0) = false) as ->.
    { unfold cache_valid. destruct Hcold as [-> | [-> | ->]]; [done| |].
      - rewrite bool_decide_eq_false_2 by (by intros ?).
        by rewrite andb_false_r.
      - apply andb_false_r. }
    by rewrite Htable. }
  split; [|split; [|split]].
  - intros Htable. unfold _get_catalog_data. py_unfold.
    destruct (cache_valid e force (clock e)); [done|]. by rewrite Htable.
  - apply Hread.
  - intros rows table Htable e1. subst e1.
    assert (_get_catalog_data true e
            = (Some (catalog_item <$> rows),
               set_cache (Some (catalog_item <$> rows)) (Some (clock e)) e)) as ->.
    { unfold _get_catalog_data. py_unfold.
      assert (cache_valid e true (clock e) = false) as -> by done.
      by rewrite Htable. }
    cbn [snd]. unfold _get_catalog_data. py_unfold.
    assert (cache_valid
              (set_catalog_table table
                 (set_cache (Some (catalog_item <$> rows)) (Some (clock e)) e))
              false
              (clock (set_catalog_table table
                 (set_cache (Some (catalog_item <$> rows)) (Some (clock e)) e)))
            = true) as ->; [|done].
    unfold cache_valid.
    cbn [set_catalog_table set_cache clock catalog_cache cache_timestamp negb andb].
    rewrite bool_decide_eq_true_2 by done. rewrite Z.sub_diag. done.
  - intros rows Htable. unfold clear_cache. py_unfold. cbn [snd].
    unfold _get_catalog_data. py_unfold.
    assert (cache_valid (set_cache None None e) false
              (clock (set_cache None None e)) = false) as ->.
    { unfold cache_valid. cbn [catalog_cache set_cache].
      rewrite bool_decide_eq_false_2 by (by intros ?). by rewrite andb_false_r. }
    cbn [catalog_table set_cache]. by rewrite Htable.
Qed.

Context `{C : CatalogDb}.

(** X17: [save_as_staging_product] reports failure and changes nothing
    when the insert raises.  When it succeeds the cached catalog is dropped,
    so that the next [_get_catalog_data] reads the table as it then stands,
    whatever the age of the cache, or gives the empty list when the table
    cannot be read.  The rule store and the trace stay, and the product
    carries the catalog identifier "111111". *)
Theorem staging_product_drops_cache (categoria variedad color grado : pystr)
    (e : Env) :
  let run := save_as_staging_product categoria variedad color grado e in
  (insert_row (staging_row categoria variedad color grado) (catalog_table e) = None →
   run = (Some false, e))
  ∧ (∀ table,
       insert_row (staging_row categoria variedad color grado) (catalog_table e)
       = Some table →
       run = (Some true, set_cache None (cache_timestamp e) (set_catalog_table table e))
       ∧ (_get_catalog_data false run.2).1
         = Some match table with
                | Some rows => catalog_item <$> rows
                | None => []
                end)
  ∧ rule_store run.2 = rule_store e ∧ trace run.2 = trace e
  ∧ entry_catalog_id (catalog_item (staging_row categoria variedad color grado))
    = py "111111".
Proof.
  intros run. subst run. unfold save_as_staging_product. py_unfold.
  destruct (insert_row _ _) as [table|] eqn:Hins.
  - split; [done|]. split; [|done].
    intros ? [= <-]. split; [done|]. cbn [snd].
    unfold _get_catalog_data. py_unfold.
    assert (∀ e', cache_valid (set_cache None (cache_timestamp e) e') false
                    (clock (set_cache None (cache_timestamp e) e')) = false) as ->
      by done.
    cbn [catalog_table set_cache set_catalog_table].
    by destruct table.
  - split; [done|]. split; [done|]. done.
Qed.

End CatalogSources.

Lemma staging_product_drops_cache_witness :
  (@save_as_staging_product sample_unicodedata committing_db
     (py "Tulip") (py "Dutch") (py "White") (py "30cm") store_up_env).1 = Some true
  ∧ (@_get_catalog_data sample_unicodedata false store_up_env).1
    = Some [roses_entry; tulip_entry]
  ∧ (@_get_catalog_data sample_unicodedata false
       (@save_as_staging_product sample_unicodedata committing_db
          (py "Tulip") (py "Dutch") (py "White") (py "30cm") store_up_env).2).1
    = Some [ @catalog_item sample_unicodedata new_db_row;
             {| entry_search_key := py "tulip dutch white 30cm";
                entry_categoria := py "Tulip"; entry_variedad := py "Dutch";
                entry_color := py "White"; entry_grado := py "30cm";
                entry_catalog_id := py "111111" |} ]
  ∧ (@_get_catalog_data sample_unicodedata false
       (@save_as_staging_product sample_unicodedata forgetting_db
          (py "Tulip") (py "Dutch") (py "White") (py "30cm") store_up_env).2).1
    = Some [ @catalog_item sample_unicodedata new_db_row ].
Proof.
  destruct (@staging_product_drops_cache sample_unicodedata committing_db
              (py "Tulip") (py "Dutch") (py "White") (py "30cm") store_up_env)
    as (_ & Hok & _).
  destruct (Hok (Some [new_db_row;
                       @staging_row sample_unicodedata
                         (py "Tulip") (py "Dutch") (py "White") (py "30cm")]))
    as [Hrun Hnext]; [by vm_compute|].
  split; [by rewrite Hrun|]. split; [by vm_compute|].
  split; [rewrite Hnext; by vm_compute|by vm_compute].
Defined.

(** ** A successful reprocessing *)



Section ReprocessSuccess.
Context `{U : Unicodedata} `{D : Datetime} `{F : Fuzz}.



End ReprocessSuccess.


(** ** The convenience functions *)

Section FreshProcessor.
Context `{U : Unicodedata} `{D : Datetime} `{F : Fuzz}.


End FreshProcessor.



Lemma row_match_sound_witness :
  scores_are_percentages noisy_fuzz
  ∧ ∃ r,
      (@_perform_fuzzy_matching noisy_fuzz (py "frdm rozes red")
         sample_catalog env0).1 = Some r
      ∧ r ≠ empty_match_result
      ∧ best_match r ≠ []
      ∧ 0 ≤ similarity r ≤ 100
      ∧ (@_perform_fuzzy_matching noisy_fuzz (py "  ") sample_catalog env0).1
        = Some empty_match_result.
Proof.
  split; [apply noisy_fuzz_percentages|].
  destruct (@row_match_sound noisy_fuzz noisy_fuzz_percentages
              (py "frdm rozes red") sample_catalog env0)
    as (r & Hrun & Hempty & Hfacts).
  exists r. split; [exact Hrun|].
  assert (r ≠ empty_match_result) as Hne.
  { intros Hr. apply Hempty in Hr as [Hb|Hk]; [by vm_compute in Hb|by vm_compute in Hk]. }
  split; [exact Hne|].
  destruct (Hfacts Hne) as (item & _ & Hbest & Hscore & _).
  split; [exact Hbest|]. split; [exact Hscore|]. by vm_compute.
Defined.
